(** * ai-reviewer.py: the AI mentor review script, embedded and verified

    The script [scripts/ai-reviewer.py] fetches the commits of a pull
    request, sends the patch of each commit to a generative model and posts
    the collected answers as one comment.  This file embeds the script in
    Rocq and proves the properties its specification states.

    - Python [str] values are sequences of Unicode code points: [list N].
      Literals of the script are written as UTF-8 text and decoded.
    - Python [set] values are [gset]s; iteration over a set goes through
      [elements], whose order is left unspecified.
    - [main] runs in a monad that threads the trace of effects performed so
      far (printed lines, file reads, REST and model calls, each with its
      answer) and an outcome that is either a returned value or a raised
      exception. *)

From Stdlib Require Import ZArith NArith String Ascii List DecimalString.
From stdpp Require Import base list gmap.

Local Open Scope Z_scope.

(** ** Python strings *)

Module Str.

(** A Python [str]: a sequence of Unicode code points. *)
Definition str : Type := list N.

(** UTF-8 decoding of the bytes of a literal.  [need] counts the
    continuation bytes still expected, [acc] holds the bits read so far. *)
Fixpoint utf8_decode (need : nat) (acc : N) (bs : list N) : str :=
  match bs with
  | [] => []
  | b :: bs' =>
      if (b <? 128)%N then b :: utf8_decode 0 0%N bs'
      else if (b <? 192)%N then
        match need with
        | 1%nat => (acc * 64 + (b - 128))%N :: utf8_decode 0 0%N bs'
        | _ => utf8_decode (pred need) (acc * 64 + (b - 128))%N bs'
        end
      else if (b <? 224)%N then utf8_decode 1 (b - 192)%N bs'
      else if (b <? 240)%N then utf8_decode 2 (b - 224)%N bs'
      else utf8_decode 3 (b - 240)%N bs'
  end.

(** A literal of the script. *)
Definition lit (s : string) : str :=
  utf8_decode 0 0%N (map N_of_ascii (list_ascii_of_string s)).

(** The double quote, which a literal cannot hold. *)
Definition dquote : str := [34%N].

(** [sub in s] on strings: [sub] occurs in [s] as a contiguous run. *)
Fixpoint contains (sub s : str) : bool :=
  bool_decide (sub `prefix_of` s) ||
  match s with
  | [] => false
  | _ :: s' => contains sub s'
  end.

(** [s.startswith(p)]. *)
Definition startswith (s p : str) : bool := bool_decide (p `prefix_of` s).

(** [s.rfind(c)] for a one-character [c]: the highest index holding [c],
    or [-1]. *)
Fixpoint rfind_from (c : N) (s : str) (i last : Z) : Z :=
  match s with
  | [] => last
  | x :: s' => rfind_from c s' (i + 1) (if bool_decide (x = c) then i else last)
  end.

Definition rfind (c : N) (s : str) : Z := rfind_from c s 0 (-1).

(** [s[i:j]] for indexes that are not negative. *)
Definition slice (s : str) (i j : Z) : str :=
  take (Z.to_nat (j - i)) (drop (Z.to_nat i) s).

(** [s[:j]] and [s[i:]]. *)
Definition slice_to (s : str) (j : Z) : str := take (Z.to_nat j) s.
Definition slice_from (s : str) (i : Z) : str := drop (Z.to_nat i) s.

(** [sep.join(parts)]. *)
Fixpoint join (sep : str) (parts : list str) : str :=
  match parts with
  | [] => []
  | [p] => p
  | p :: rest => p ++ sep ++ join sep rest
  end.

(** [str(n)] for an [int]. *)
Definition of_Z (n : Z) : str := lit (NilZero.string_of_int (Z.to_int n)).

(** [str.isspace] on one code point: the characters Python strips. *)
Definition isspace (c : N) : bool :=
  ((9 <=? c) && (c <=? 13) || (28 <=? c) && (c <=? 32) ||
   (c =? 133) || (c =? 160) || (c =? 5760) ||
   (8192 <=? c) && (c <=? 8202) || (c =? 8232) || (c =? 8233) ||
   (c =? 8239) || (c =? 8287) || (c =? 12288))%N.

Fixpoint lstrip (s : str) : str :=
  match s with
  | c :: s' => if isspace c then lstrip s' else s
  | [] => []
  end.

(** [s.strip()]. *)
Definition strip (s : str) : str := rev (lstrip (rev (lstrip s))).

(** Lower-casing of the letters [A]..[Z]; other code points are kept. *)
Definition lower_char (c : N) : N :=
  if ((65 <=? c) && (c <=? 90))%N then (c + 32)%N else c.

Definition lower_ascii (s : str) : str := map lower_char s.

Definition is_ascii (s : str) : bool := forallb (fun c => (c <? 128)%N) s.

(** [s.lower()].  On a string of ASCII characters it lowers [A]..[Z];
    on any other string it follows the Unicode tables of the interpreter,
    which are the parameter [unicode_lower]. *)
Definition lower (unicode_lower : str -> str) (s : str) : str :=
  if is_ascii s then lower_ascii s else unicode_lower s.

(** A Python value used as a condition: [None] and [''] are false. *)
Definition truthy (v : option str) : bool :=
  match v with
  | Some (_ :: _) => true
  | _ => false
  end.

(** A value inside an f-string: [None] prints as the word None. *)
Definition fmt (v : option str) : str :=
  match v with
  | Some s => s
  | None => lit "None"
  end.

End Str.

Export Str.

(** ** os.path on a POSIX runner *)

Module PosixPath.

Definition sep : N := 47%N.      (* '/' *)
Definition extsep : N := 46%N.   (* '.' *)

(** The [while filenameIndex < dotIndex] loop of [genericpath._splitext]:
    it returns the split at the last dot as soon as it meets a character
    of the file name that is not a dot, and falls through when the name
    before the last dot consists of dots only.  [n] bounds the number of
    iterations. *)
Fixpoint splitext_loop (n : nat) (p : str) (filenameIndex dotIndex : Z)
  : option (str * str) :=
  match n with
  | O => None
  | S n' =>
      if bool_decide (filenameIndex < dotIndex) then
        if bool_decide (slice p filenameIndex (filenameIndex + 1) ≠ [extsep])
        then Some (slice_to p dotIndex, slice_from p dotIndex)
        else splitext_loop n' p (filenameIndex + 1) dotIndex
      else None
  end.

(** [os.path.splitext(p)]: [(root, ext)], with [ext] empty or starting at
    the last dot of the last path component; leading dots of the component
    do not start an extension. *)
Definition splitext (p : str) : str * str :=
  let sepIndex := rfind sep p in
  let dotIndex := rfind extsep p in
  if bool_decide (dotIndex > sepIndex) then
    match splitext_loop (Z.to_nat (dotIndex - (sepIndex + 1))) p
            (sepIndex + 1) dotIndex with
    | Some r => r
    | None => (p, [])
    end
  else (p, []).

(** [os.path.join(a, b)]. *)
Definition join (a b : str) : str :=
  if startswith b [sep] then b
  else if bool_decide (a = []) || bool_decide (last a = Some sep) then a ++ b
  else a ++ [sep] ++ b.

End PosixPath.

(** ** Configuration *)

Definition SUPPORTED_EXTENSIONS : gset str :=
  {[ lit ".js"; lit ".jsx"; lit ".ts"; lit ".tsx"; lit ".mjs"; lit ".cjs";
     lit ".vue"; lit ".svelte"; lit ".astro";
     lit ".css"; lit ".scss"; lit ".sass"; lit ".less"; lit ".styl";
     lit ".html"; lit ".htm"; lit ".pug"; lit ".ejs"; lit ".handlebars";
     lit ".hbs";
     lit ".json"; lit ".go"; lit ".java"; lit ".cpp"; lit ".c"; lit ".md" ]}.

Definition IGNORE_DIRS : gset str :=
  {[ lit ".git"; lit ".github"; lit ".vscode"; lit ".idea";
     lit "node_modules"; lit "bower_components";
     lit "dist"; lit "build"; lit "out"; lit "coverage";
     lit "__pycache__"; lit "venv"; lit "bin"; lit "obj";
     lit ".next"; lit ".nuxt"; lit ".astro" ]}.

(** ** The file filter *)

(** The [for ignore_dir in IGNORE_DIRS] loop of [should_ignore_file]:
    [true] when some iteration returns [True]. *)
Fixpoint ignore_dir_loop (dirs : list str) (file_path : str) : bool :=
  match dirs with
  | [] => false
  | ignore_dir :: rest =>
      if contains (lit "/" ++ ignore_dir ++ lit "/") file_path
         || startswith file_path (ignore_dir ++ lit "/")
      then true
      else ignore_dir_loop rest file_path
  end.

Definition should_ignore_file (file_path : str) : bool :=
  if ignore_dir_loop (elements IGNORE_DIRS) file_path then true
  else
    let ext := (PosixPath.splitext file_path).2 in
    bool_decide (ext ∉ SUPPORTED_EXTENSIONS).


(** ** The data of the REST interface and of the runner

    The answers of the REST interface are taken at the schema the host
    documents: a commit of a pull request has a [sha] and a
    [commit.message]; a commit detail may hold [files]; a file entry has a
    [filename] and a [status], and a [patch] unless the file is binary or
    the diff is too large. *)

Record Commit := { sha : str; message : str }.

Record FileInfo := { filename : str; status : str; patch : option str }.

Record CommitData := { files : option (list FileInfo) }.

Record PullRequest := { number : Z }.

(** The event payload; [pull_request] is absent on other events. *)
Record EventData := { pull_request : option PullRequest }.

(** An exception object: its class and the text [str(e)] gives.  Only
    subclasses of [Exception] are modelled. *)
Record exn := Exception { exn_class : string; exn_text : str }.

(** The working tree as [os.walk] sees it.  A directory lists its
    sub-directories and its other entries, in listing order.  A
    sub-directory that the walk does not enter (a symbolic link, or a
    directory that cannot be listed) carries [None].  A file carries what
    opening and reading it as UTF-8 text gives. *)
#[warnings="-register-all"]
Inductive tree :=
| Tree (dirs : list (str * option tree)) (entries : list (str * (exn + str))).

(** Request headers of the REST calls. *)
Definition github_headers (token : option str) : list (str * str) :=
  [ (lit "Authorization", lit "token " ++ fmt token);
    (lit "Accept", lit "application/vnd.github.v3+json") ].

(** ** Effects *)

(** What the run does to the outside, each call with its answer. *)
Inductive event :=
| Print (line : str)
| GenaiConfigure (api_key : option str)
| GenerativeModel (name : str)
| LoadEvent (path : str) (r : exn + EventData)
| ReadFile (path : str) (r : exn + str)
| GetPrCommits (url : str) (headers : list (str * str)) (r : exn + list Commit)
| GetCommitChanges (url : str) (headers : list (str * str)) (r : exn + CommitData)
| GenerateContent (prompt : str) (r : exn + str)
| PostComment (url : str) (headers : list (str * str)) (body : str) (r : exn + Z).

Definition trace : Type := list event.

(** The environment of a run.  The answers of the network may depend on
    everything that happened before the call. *)
Record World := {
  environ : gmap str str;
  unicode_lower : str → str;
  load_json : str → exn + EventData;
  working_tree : option tree;
  github_pr_commits : trace → str → list (str * str) → exn + list Commit;
  github_commit : trace → str → list (str * str) → exn + CommitData;
  gemini_generate : trace → str → exn + str;
  github_post : trace → str → list (str * str) → str → exn + Z
}.

(** [os.getenv(name)]. *)
Definition getenv (w : World) (name : str) : option str := environ w !! name.

Inductive outcome (A : Type) :=
| Returned (a : A)
| Raised (e : exn).
Arguments Returned {A} a.
Arguments Raised {A} e.

(** A computation reads the trace of what happened before it and gives
    an outcome together with the events it performed itself. *)
Definition M (A : Type) : Type := trace → outcome A * list event.

#[global] Instance M_ret : MRet M := λ A a _, (Returned a, []).

#[global] Instance M_bind : MBind M := λ A B k m tr,
  match m tr with
  | (Returned a, evs) =>
      let '(o, evs') := k a (tr ++ evs) in (o, evs ++ evs')
  | (Raised e, evs) => (Raised e, evs)
  end.

Definition raise {A} (e : exn) : M A := λ _, (Raised e, []).

(** [try: m except Exception as e: h e]. *)
Definition try_except {A} (m : M A) (h : exn → M A) : M A := λ tr,
  match m tr with
  | (Raised e, evs) =>
      let '(o, evs') := h e (tr ++ evs) in (o, evs ++ evs')
  | r => r
  end.

Definition emit (ev : event) : M unit := λ _, (Returned tt, [ev]).

Definition print (line : str) : M unit := emit (Print line).

(** A call to the outside: the answer is recorded, a failure is raised. *)
Definition call {A} (answer : trace → exn + A) (ev : exn + A → event) : M A :=
  λ tr,
    let r := answer tr in
    (match r with inl e => Raised e | inr a => Returned a end, [ev r]).

(** ** The REST client *)

Definition get_pr_commits (w : World) (repo : option str) (pr_number : Z)
    (token : option str) : M (list Commit) :=
  let url := lit "https://api.github.com/repos/" ++ fmt repo ++ lit "/pulls/"
             ++ of_Z pr_number ++ lit "/commits" in
  let headers := github_headers token in
  call (λ tr, github_pr_commits w tr url headers) (GetPrCommits url headers).

Definition get_commit_changes (w : World) (repo : option str) (commit_sha : str)
    (token : option str) : M CommitData :=
  let url := lit "https://api.github.com/repos/" ++ fmt repo ++ lit "/commits/"
             ++ commit_sha in
  let headers := github_headers token in
  call (λ tr, github_commit w tr url headers) (GetCommitChanges url headers).

Definition post_comment (w : World) (repo : option str) (pr_num : Z)
    (token : option str) (body : str) : M unit :=
  let url := lit "https://api.github.com/repos/" ++ fmt repo ++ lit "/issues/"
             ++ of_Z pr_num ++ lit "/comments" in
  let headers := github_headers token in
  let data := lit "### 🎓 კომიტების მიმოხილვა (AI Mentor)

" ++ body in
  status_code ← call (λ tr, github_post w tr url headers data)
                     (PostComment url headers data) ;
  if bool_decide (status_code = 201) then
    print (lit "✅ Comment posted successfully!")
  else
    print (lit "❌ Failed to post comment: " ++ of_Z status_code).

(** ** The prompt *)

Definition LEARNING_RESOURCES : str :=
  lit "
**HTML & Semantic Markup:**
- MDN HTML Basics: https://developer.mozilla.org/en-US/docs/Learn/HTML
- Web.dev Learn HTML: https://web.dev/learn/html

**CSS & Styling:**
- CSS-Tricks Complete Guide: https://css-tricks.com/guides/
- MDN CSS Layout: https://developer.mozilla.org/en-US/docs/Learn/CSS/CSS_layout
- Flexbox Froggy (Game): https://flexboxfroggy.com/
- Grid Garden (Game): https://cssgridgarden.com/

**JavaScript Basics:**
- JavaScript.info (ქართულად): https://javascript.info/
- MDN JavaScript Guide: https://developer.mozilla.org/en-US/docs/Web/JavaScript/Guide
- Eloquent JavaScript (Free Book): https://eloquentjavascript.net/

**Forms & Validation:**
- MDN Forms Guide: https://developer.mozilla.org/en-US/docs/Learn/Forms
- Web.dev Sign-in Form Best Practices: https://web.dev/sign-in-form-best-practices/

**Accessibility:**
- Web.dev Learn Accessibility: https://web.dev/learn/accessibility
- A11y Project Checklist: https://www.a11yproject.com/checklist/

**General Best Practices:**
- Web.dev Learn: https://web.dev/learn
- Frontend Checklist: https://frontendchecklist.io/
".

Definition PROMPT_ROLE : str :=
  lit "
# შენი როლი და კონტექსტი
შენ ხარ გამოცდილი ფრონტენდ-დეველოპერი მენტორი, რომელიც მუშაობს **დამწყებ ფრონტენდ სტუდენტებთან**. 
შენი ძირითადი მიზანია: არა მხოლოდ შეცდომების მითითება, არამედ სწავლის პროცესის გაადვილება და მოტივაციის გაზრდა.

# დავალების კონტექსტი
".

Definition PROMPT_CHANGES : str :=
  lit "

# ამ კომიტში შეტანილი ცვლილებები
".

Definition PROMPT_TASKS : str :=
  lit "

# შენი ამოცანები (ზუსტად ამ თანმიმდევრობით)

## ნაბიჯი 1: გააანალიზე სტუდენტის დონე
- შეაფასე კოდის სირთულე და სტილი
- განსაზღვრე სტუდენტის სავარაუდო ცოდნის დონე (absolute beginner / beginner / intermediate beginner)
- მოერგე ენობრივ სირთულეს მის დონეს
- დამწყები = მარტივი ენა, მეტი ახსნა; გამოცდილი = უფრო ტექნიკური

## ნაბიჯი 2: იდენტიფიცირე კლიდები
- რა სწავლობს სტუდენტი ამ კომიტში? (HTML structure? CSS styling? JavaScript basics? Forms?)
- რა კონცეფციები ან ტექნოლოგიები გამოიყენა?
- რა არის მისი ძლიერი მხარე? რას სჭირდება გაუმჯობესება?

## ნაბიჯი 3: გასცი feedback (მოკლედ და კონკრეტულად)

**მნიშვნელოვანი წესები:**
- **იყავი ლაკონური**: მაქსიმუმ 5 წინადადება
- **ფოკუსირება**: მხოლოდ ამ კომიტის ცვლილებებზე
- **დაიწყე პოზიტიურით**: ყოველთვის ამოიწურე რაღაც კარგი (ეს ამაღლებს მოტივაციას)
- **კონკრეტული**: თუ რაიმე უნდა შეიცვალოს, მიუთითე ზუსტი კოდის ხაზი და როგორ
- **ახსნა რატომ**: არ დაწერო მხოლოდ " ++ dquote ++ lit "ეს ცუდია" ++ dquote ++ lit ", ახსენი რა პრობლემას იწვევს
- **დამწყებისთვის**: თავიდან აიცილე ძალიან ტექნიკური ტერმინები ან დაამატე მარტივი განმარტება

## ნაბიჯი 4: რესურსების რეკომენდაცია
იდენტიფიცირებული დონისა და კონცეფციების საფუძველზე:
- შესთავაზე **1-2 კონკრეტული რესურსი** (MDN docs, web.dev, CSS-Tricks, JavaScript.info)
- რესურსი უნდა იყოს **პირდაპირ დაკავშირებული** იმ თემასთან, რაზეც სტუდენტი მუშაობს
- ენა: ქართულენოვანი რესურსები (თუ არსებობს), თორემ ინგლისური

# გამოსატანი ფორმატი (მკაცრად დაიცავი)

✅ **რა მუშაობს კარგად**
[1 წინადადება - აუცილებლად იპოვე რაღაც პოზიტიური, თუნდაც პატარა]

💡 **რჩევები**
• [კონკრეტული რჩევა 1 - მიუთითე ფაილი და რა უნდა შეიცვალოს]
• [კონკრეტული რჩევა 2 - ახსენი რატომ]
[არაუმეტეს 3 პუნქტისა]

📚 **რესურსი შემდეგი ნაბიჯისთვის**
[1-2 კონკრეტული ლინკი ან რეკომენდაცია, რომელიც დაეხმარება ზუსტად იმ კონცეფციის გაღრმავებაში, რაზეც მუშაობს]

# ხელმისაწვდომი რესურსების ბაზა
".

Definition PROMPT_EXAMPLE : str :=
  lit "

---

# მაგალითი იდეალური პასუხისა

✅ **რა მუშაობს კარგად**
კარგად გამოიყენე semantic HTML-ის `<form>` და `<label>` ტეგები - ეს აუმჯობესებს accessibility-ს.

💡 **რჩევები**
• `index.html`-ში, ხაზი 15: `<button>` ელემენტს დაამატე `type=" ++ dquote ++ lit "submit" ++ dquote ++ lit "` (default იქნება submit, მაგრამ ნათლად მიუთითე)
• `styles.css`-ში კლასის სახელები გახადე აღწერითი: `.btn-1` → `.submit-button` (6 თვის შემდეგ დაგავიწყდება რას ნიშნავს btn-1)

📚 **რესურსი შემდეგი ნაბიჯისთვის**
• MDN - HTML Forms Guide: https://developer.mozilla.org/en-US/docs/Learn/Forms
• ან ქართულად: https://javascript.info/forms-controls (თარგმნილია ქართულად)

---

**დაიწყე რევიუ:**
".


Definition PROMPT_NO_TASK : str :=
  lit "დავალების აღწერა არ მოიძებნა. გააანალიზე კოდი ზოგადი best practices-ის მიხედვით.".

(** The f-string of step 6. *)
Definition make_prompt (exercise_content changed_content : str) : str :=
  PROMPT_ROLE
  ++ (if bool_decide (exercise_content ≠ []) then exercise_content
      else PROMPT_NO_TASK)
  ++ PROMPT_CHANGES ++ changed_content
  ++ PROMPT_TASKS ++ LEARNING_RESOURCES
  ++ PROMPT_EXAMPLE.

(** ** Step 3: the task description *)

Definition TASK_FILES : list str :=
  [ lit "readme.md"; lit "task.md"; lit "exercise.md"; lit "assignment.md" ].

(** [os.walk(top)], top-down, as the loop of step 3 drives it: the body of
    the loop removes the denylisted names from [dirs] before the generator
    descends.  Each element is [(root, files)], the files with what
    reading them gives. *)
Fixpoint os_walk (top : str) (t : tree) : list (str * list (str * (exn + str))) :=
  match t with
  | Tree dirs entries =>
      (top, entries) ::
      (fix descend (ds : list (str * option tree)) :=
         match ds with
         | [] => []
         | (d, sub) :: ds' =>
             (if bool_decide (d ∉ IGNORE_DIRS) then
                match sub with
                | Some t' => os_walk (PosixPath.join top d) t'
                | None => []
                end
              else []) ++ descend ds'
         end) dirs
  end.

(** [file.lower() in ['readme.md', ...]]. *)
Definition is_task_file (w : World) (file : str) : bool :=
  bool_decide (lower (unicode_lower w) file ∈ TASK_FILES).

(** The loop [for file in files]; it returns [exercise_content] as the
    loop leaves it. *)
Fixpoint files_loop (w : World) (root : str) (fs : list (str * (exn + str)))
    (exercise_content : str) : M str :=
  match fs with
  | [] => mret exercise_content
  | (file, content) :: rest =>
      if is_task_file w file then
        let file_path := PosixPath.join root file in
        r ← try_except
              (text ← call (λ _, content) (ReadFile file_path) ;
               print (lit "📋 Found task description: " ++ file_path) ;;
               mret (Some text))
              (λ e, print (lit "⚠️ Could not read " ++ file_path ++ lit ": "
                           ++ exn_text e) ;;
                    mret None) ;
        match r with
        | Some text => mret text
        | None => files_loop w root rest exercise_content
        end
      else files_loop w root rest exercise_content
  end.

(** The loop [for root, dirs, files in os.walk(".")]. *)
Fixpoint walk_loop (w : World) (triples : list (str * list (str * (exn + str))))
    (exercise_content : str) : M str :=
  match triples with
  | [] => mret exercise_content
  | (root, fs) :: rest =>
      exercise_content ← files_loop w root fs exercise_content ;
      if bool_decide (exercise_content ≠ []) then mret exercise_content
      else walk_loop w rest exercise_content
  end.

Definition read_exercise (w : World) : M str :=
  walk_loop w
    (match working_tree w with
     | Some t => os_walk (lit ".") t
     | None => []
     end) [].

(** ** Step 5: the changed files of one commit *)

(** The text added to [changed_content] for one file. *)
Definition file_section (file_info : FileInfo) : str :=
  (lit "
--- FILE: " ++ filename file_info ++ lit " ---
")
  ++ (lit "Status: " ++ status file_info ++ lit "
")
  ++ (lit "Changes:
" ++ default [] (patch file_info) ++ lit "
").

(** The loop [for file_info in files], on the two variables it updates. *)
Fixpoint changed_files_loop (fs : list FileInfo) (changed_content : str)
    (file_count : Z) : str * Z :=
  match fs with
  | [] => (changed_content, file_count)
  | file_info :: rest =>
      let file_path := filename file_info in
      if should_ignore_file file_path then
        changed_files_loop rest changed_content file_count
      else
        let patch' := default [] (patch file_info) in
        if bool_decide (patch' ≠ []) then
          changed_files_loop rest (changed_content ++ file_section file_info)
            (file_count + 1)
        else changed_files_loop rest changed_content file_count
  end.

(** ** Steps 5 to 7: one commit *)

(** What the later steps keep from steps 1 and 2. *)
Record Session := {
  github_token : option str;
  repo_full_name : option str;
  pr_number : Z
}.

Definition format_feedback (commit : Commit) (feedback : str) : str :=
  lit "**[`" ++ take 7 (sha commit) ++ lit "`]** " ++ message commit
  ++ lit "

" ++ feedback.

(** The body of [for commit in commits]; it returns [all_feedback] as the
    iteration leaves it. *)
Definition review_commit (w : World) (s : Session) (exercise_content : str)
    (all_feedback : list str) (commit : Commit) : M (list str) :=
  let commit_sha := sha commit in
  let commit_message := message commit in
  let short_sha := take 7 commit_sha in
  print (lit "
📝 Reviewing commit: " ++ short_sha ++ lit " - " ++ commit_message) ;;
  r ← try_except
        (commit_data ← get_commit_changes w (repo_full_name s) commit_sha
                         (github_token s) ;
         mret (Some (default [] (files commit_data))))
        (λ e, print (lit "❌ Error fetching commit changes: " ++ exn_text e) ;;
              mret None) ;
  match r with
  | None => mret all_feedback
  | Some fs =>
      let '(changed_content, file_count) := changed_files_loop fs [] 0 in
      if bool_decide (file_count = 0) then
        print (lit "⚠️ No relevant files changed in this commit, skipping...") ;;
        mret all_feedback
      else
        print (lit "✅ Analyzing " ++ of_Z file_count ++ lit " changed files...") ;;
        let prompt := make_prompt exercise_content changed_content in
        try_except
          (text ← call (λ tr, gemini_generate w tr prompt) (GenerateContent prompt) ;
           let feedback := strip text in
           let formatted_feedback := format_feedback commit feedback in
           mret (all_feedback ++ [formatted_feedback]))
          (λ e, print (lit "❌ Gemini Error for commit " ++ short_sha ++ lit ": "
                       ++ exn_text e) ;;
                mret all_feedback)
  end.

Fixpoint review_commits (w : World) (s : Session) (exercise_content : str)
    (commits : list Commit) (all_feedback : list str) : M (list str) :=
  match commits with
  | [] => mret all_feedback
  | commit :: rest =>
      all_feedback ← review_commit w s exercise_content all_feedback commit ;
      review_commits w s exercise_content rest all_feedback
  end.

(** ** main *)

(** [open(event_path)] and [json.load]: [open(None)] raises [TypeError]. *)
Definition load_event (w : World) (event_path : option str) : M EventData :=
  match event_path with
  | None =>
      raise (Exception "TypeError"
               (lit "expected str, bytes or os.PathLike object, not NoneType"))
  | Some path => call (λ _, load_json w path) (LoadEvent path)
  end.

(** Steps 1 to 7 of [main]: [None] when [main] returns early, otherwise
    the session and [all_feedback] as the loop over the commits leaves it. *)
Definition collect_feedback (w : World) : M (option (Session * list str)) :=
  let gemini_key := getenv w (lit "GEMINI_API_KEY") in
  let github_token := getenv w (lit "GITHUB_TOKEN") in
  if negb (truthy gemini_key) || negb (truthy github_token) then
    print (lit "❌ Error: Missing API Key or Token.") ;;
    mret None
  else
    emit (GenaiConfigure gemini_key) ;;
    emit (GenerativeModel (lit "gemini-2.5-pro")) ;;
    let repo_full_name := getenv w (lit "GITHUB_REPOSITORY") in
    let event_path := getenv w (lit "GITHUB_EVENT_PATH") in
    event_data ← load_event w event_path ;
    match pull_request event_data with
    | None =>
        print (lit "⚠️ Not a Pull Request event. Ensure this runs in a PR context for comments.") ;;
        mret None
    | Some pr =>
        let pr_number := number pr in
        exercise_content ← read_exercise w ;
        print (lit "🔍 Fetching commits from PR...") ;;
        r ← try_except
              (commits ← get_pr_commits w repo_full_name pr_number github_token ;
               print (lit "✅ Found " ++ of_Z (Z.of_nat (length commits))
                      ++ lit " commits") ;;
               mret (Some commits))
              (λ e, print (lit "❌ Error fetching commits: " ++ exn_text e) ;;
                    mret None) ;
        match r with
        | None => mret None
        | Some commits =>
            let s := {| github_token := github_token;
                        repo_full_name := repo_full_name;
                        pr_number := pr_number |} in
            all_feedback ← review_commits w s exercise_content commits [] ;
            mret (Some (s, all_feedback))
        end
    end.

(** Step 8 of [main]: what follows the loop. *)
Definition publish (w : World) (s : Session) (all_feedback : list str) : M unit :=
  if bool_decide (all_feedback = []) then
    print (lit "⚠️ No feedback generated for any commits.")
  else
    let header := lit "🎓 **AI Mentor Review** - თითოეული კომიტის დეტალური განხილვა

" in
    let footer := lit "

---

💡 *ეს feedback გენერირებულია AI-ის მიერ. თუ რაიმე გაურკვეველია, ჰკითხე მენტორს!*" in
    let combined_feedback := header ++ join (lit "

---

") all_feedback ++ footer in
    post_comment w (repo_full_name s) (pr_number s) (github_token s)
      combined_feedback.

Definition main (w : World) : M unit :=
  r ← collect_feedback w ;
  match r with
  | None => mret tt
  | Some (s, all_feedback) => publish w s all_feedback
  end.

(** A run starts with nothing done; it gives the outcome of [main] and
    the trace of the whole run. *)
Definition run (w : World) : outcome unit * trace := main w [].

(** * Vocabulary of the properties *)

(** Literals are compared as written, never by decoding them. *)
Strategy 1000 [lit].

Arguments lit : simpl never.
Arguments of_Z : simpl never.
Arguments strip : simpl never.
Arguments make_prompt : simpl never.
Arguments should_ignore_file : simpl never.

(** ** Strings and the file filter *)

(** [sub] occurs in [s] as a contiguous run of characters. *)
Definition occurs_in (sub s : str) : Prop := ∃ a b, s = a ++ sub ++ b.

(** The extension of a path, as [os.path.splitext] gives it; it is empty
    when the path has none. *)
Definition extension (p : str) : str := (PosixPath.splitext p).2.

(** The path lies in a denylisted directory: some [/dir/] occurs in it or
    it starts with some [dir/]. *)
Definition in_ignored_dir (p : str) : Prop :=
  ∃ d, d ∈ IGNORE_DIRS ∧
       (occurs_in (lit "/" ++ d ++ lit "/") p ∨ (d ++ lit "/") `prefix_of` p).

(** [p.split('/')]: the segments of a path. *)
Fixpoint segments (p : str) : list str :=
  match p with
  | [] => [[]]
  | c :: p' =>
      if bool_decide (c = PosixPath.sep) then [] :: segments p'
      else match segments p' with
           | s :: ss => (c :: s) :: ss
           | [] => [[c]]
           end
  end.

(** The segments that name a directory: all but the last. *)
Definition directories (p : str) : list str := removelast (segments p).

(** Leading dots removed. *)
Fixpoint strip_dots (d : str) : str :=
  match d with
  | c :: d' => if bool_decide (c = PosixPath.extsep) then strip_dots d' else d
  | [] => []
  end.

(** ** The changed files and the loop over the commits *)

(** The entries that pass the file filter and carry a patch text. *)
Definition kept_files (fs : list FileInfo) : list FileInfo :=
  filter (λ f, should_ignore_file (filename f) = false
               ∧ patch f ≠ None ∧ patch f ≠ Some []) fs.

(** What a prompt shows of one changed file: a header line with the path,
    a line with the status, and the patch text under its own heading. *)
Definition entry_text (path status patch : str) : str :=
  lit "
--- FILE: " ++ path ++ lit " ---
Status: " ++ status ++ lit "
Changes:
" ++ patch ++ lit "
".

(** The same for an entry of the commit detail; an absent patch reads as
    the empty text. *)
Definition entry_of (f : FileInfo) : str :=
  entry_text (filename f) (status f) (default [] (patch f)).

Definition commit_url (s : Session) (c : Commit) : str :=
  lit "https://api.github.com/repos/" ++ fmt (repo_full_name s)
  ++ lit "/commits/" ++ sha c.

Definition reviewing_line (c : Commit) : str :=
  lit "
📝 Reviewing commit: " ++ take 7 (sha c) ++ lit " - " ++ message c.

(** The urls of the commit-detail calls of a trace, in order. *)
Definition detail_calls (evs : list event) : list str :=
  omap (λ ev, match ev with
              | GetCommitChanges url _ _ => Some url
              | _ => None
              end) evs.

(** The events an iteration of the loop can perform. *)
Definition loop_event (ev : event) : Prop :=
  match ev with
  | Print _ | GetCommitChanges _ _ _ | GenerateContent _ _ => True
  | _ => False
  end.

(** ** The task description *)

(** The task files of one directory, in listing order, each with its path
    and with what reading it gives. *)
Definition dir_candidates (w : World) (root : str)
    (fs : list (str * (exn + str))) : list (str * (exn + str)) :=
  (λ fc, (PosixPath.join root fc.1, fc.2))
    <$> filter (λ fc, is_task_file w fc.1 = true) fs.

(** The task files of the walk, in traversal order. *)
Definition candidates (w : World)
    (triples : list (str * list (str * (exn + str)))) : list (str * (exn + str)) :=
  triples ≫= (λ rf, dir_candidates w rf.1 rf.2).

(** The walk of the working directory. *)
Definition walk (w : World) : list (str * list (str * (exn + str))) :=
  match working_tree w with
  | Some t => os_walk (lit ".") t
  | None => []
  end.

(** The text of the first candidate that can be read. *)
Fixpoint first_read (cs : list (str * (exn + str))) : option str :=
  match cs with
  | [] => None
  | (_, inr text) :: _ => Some text
  | (_, inl _) :: cs' => first_read cs'
  end.

Definition could_not_read (path : str) (e : exn) : event :=
  Print (lit "⚠️ Could not read " ++ path ++ lit ": " ++ exn_text e).

(** The events of reading candidates up to the first that can be read. *)
Fixpoint read_events (cs : list (str * (exn + str))) : list event :=
  match cs with
  | [] => []
  | (path, inr text) :: _ =>
      [ReadFile path (inr text);
       Print (lit "📋 Found task description: " ++ path)]
  | (path, inl e) :: cs' =>
      ReadFile path (inl e) :: could_not_read path e :: read_events cs'
  end.

(** The result of the loop over the walk, directory by directory. *)
Fixpoint walk_result (w : World) (triples : list (str * list (str * (exn + str))))
    (ec : str) : str :=
  match triples with
  | [] => ec
  | (root, fs) :: rest =>
      let ec' := default ec (first_read (dir_candidates w root fs)) in
      if bool_decide (ec' ≠ []) then ec' else walk_result w rest ec'
  end.

Fixpoint walk_events (w : World) (triples : list (str * list (str * (exn + str))))
    (ec : str) : list event :=
  match triples with
  | [] => []
  | (root, fs) :: rest =>
      let ec' := default ec (first_read (dir_candidates w root fs)) in
      read_events (dir_candidates w root fs)
      ++ (if bool_decide (ec' ≠ []) then [] else walk_events w rest ec')
  end.

(** The claim as the specification words it: the content of the first task
    file of the traversal, and the empty string when there is none or when
    reading that file fails. *)
Definition first_task_file_content (w : World) : str :=
  match candidates w (walk w) with
  | [] => []
  | (_, inr text) :: _ => text
  | (_, inl _) :: _ => []
  end.

(** The events of step 3: printed lines and file reads. *)
Definition file_event (ev : event) : Prop :=
  match ev with
  | Print _ | ReadFile _ _ => True
  | _ => False
  end.

(** ** The run of main *)

Definition missing_secret_line : str := lit "❌ Error: Missing API Key or Token.".

Definition not_a_pull_request_line : str :=
  lit "⚠️ Not a Pull Request event. Ensure this runs in a PR context for comments.".

Definition no_event_path : exn :=
  Exception "TypeError" (lit "expected str, bytes or os.PathLike object, not NoneType").

Definition pr_commits_url (repo : option str) (pr_number : Z) : str :=
  lit "https://api.github.com/repos/" ++ fmt repo ++ lit "/pulls/"
  ++ of_Z pr_number ++ lit "/commits".

Definition GEMINI_API_KEY (w : World) : option str := getenv w (lit "GEMINI_API_KEY").
Definition GITHUB_TOKEN (w : World) : option str := getenv w (lit "GITHUB_TOKEN").
Definition GITHUB_REPOSITORY (w : World) : option str := getenv w (lit "GITHUB_REPOSITORY").
Definition GITHUB_EVENT_PATH (w : World) : option str := getenv w (lit "GITHUB_EVENT_PATH").

(** Both secrets are present and not empty. *)
Definition secrets_present (w : World) : Prop :=
  truthy (GEMINI_API_KEY w) = true ∧ truthy (GITHUB_TOKEN w) = true.

(** The events of step 1 once the secrets are there. *)
Definition setup_events (w : World) : list event :=
  [GenaiConfigure (GEMINI_API_KEY w); GenerativeModel (lit "gemini-2.5-pro")].

(** The events up to the call that lists the commits. *)
Definition startup_events (w : World) (path : str) (event_data : EventData) : list event :=
  setup_events w ++ [LoadEvent path (inr event_data)]
  ++ walk_events w (walk w) [] ++ [Print (lit "🔍 Fetching commits from PR...")].

Definition session (w : World) (pr : PullRequest) : Session :=
  {| github_token := GITHUB_TOKEN w; repo_full_name := GITHUB_REPOSITORY w;
     pr_number := number pr |}.

(** The runs of steps 1 to 7: the outcome and the events of each way
    through them. *)
Inductive collect_run (w : World) :
    outcome (option (Session * list str)) → list event → Prop :=
| run_missing_secret :
    ¬ secrets_present w →
    collect_run w (Returned None) [Print missing_secret_line]
| run_no_event_path :
    secrets_present w → GITHUB_EVENT_PATH w = None →
    collect_run w (Raised no_event_path) (setup_events w)
| run_load_fails path e :
    secrets_present w → GITHUB_EVENT_PATH w = Some path →
    load_json w path = inl e →
    collect_run w (Raised e) (setup_events w ++ [LoadEvent path (inl e)])
| run_not_a_pull_request path event_data :
    secrets_present w → GITHUB_EVENT_PATH w = Some path →
    load_json w path = inr event_data → pull_request event_data = None →
    collect_run w (Returned None)
      (setup_events w ++ [LoadEvent path (inr event_data);
                          Print not_a_pull_request_line])
| run_fetch_fails path event_data pr e :
    secrets_present w → GITHUB_EVENT_PATH w = Some path →
    load_json w path = inr event_data → pull_request event_data = Some pr →
    collect_run w (Returned None)
      (startup_events w path event_data
       ++ [GetPrCommits (pr_commits_url (GITHUB_REPOSITORY w) (number pr))
             (github_headers (GITHUB_TOKEN w)) (inl e);
           Print (lit "❌ Error fetching commits: " ++ exn_text e)])
| run_reviewed path event_data pr commits picks evs :
    secrets_present w → GITHUB_EVENT_PATH w = Some path →
    load_json w path = inr event_data → pull_request event_data = Some pr →
    picks.*1 `sublist_of` commits →
    detail_calls evs = commit_url (session w pr) <$> commits →
    Forall loop_event evs →
    collect_run w
      (Returned (Some (session w pr,
                       (λ ct, format_feedback ct.1 ct.2) <$> picks)))
      (startup_events w path event_data
       ++ [GetPrCommits (pr_commits_url (GITHUB_REPOSITORY w) (number pr))
             (github_headers (GITHUB_TOKEN w)) (inr commits);
           Print (lit "✅ Found " ++ of_Z (Z.of_nat (length commits))
                  ++ lit " commits")]
       ++ evs).

(** The calls that go to the network. *)
Definition network_event (ev : event) : Prop :=
  match ev with
  | GetPrCommits _ _ _ | GetCommitChanges _ _ _
  | GenerateContent _ _ | PostComment _ _ _ _ => True
  | _ => False
  end.

(** The events that are no call of the REST interface. *)
Definition local_event (ev : event) : Prop :=
  match ev with
  | GetPrCommits _ _ _ | GetCommitChanges _ _ _ | PostComment _ _ _ _ => False
  | _ => True
  end.

Definition no_feedback_line : str := lit "⚠️ No feedback generated for any commits.".

(** A secret is absent or empty. *)
Definition secret_missing (v : option str) : Prop := v = None ∨ v = Some [].

(** ** Further vocabulary *)

(** The root of a path, as [os.path.splitext] gives it. *)
Definition path_root (p : str) : str := (PosixPath.splitext p).1.

(** For each directory of the walk, in order, the text of its first task
    file that can be read, when there is one. *)
Definition dir_texts (w : World) : list str :=
  omap (λ rf, first_read (dir_candidates w rf.1 rf.2)) (walk w).

(** The directory reached from [top] through [names]. *)
Definition descend_path (top : str) (names : list str) : str :=
  foldl PosixPath.join top names.

(** The answers of the model calls of a trace, in order. *)
Definition model_answers (evs : list event) : list (exn + str) :=
  omap (λ ev, match ev with
              | GenerateContent _ r => Some r
              | _ => None
              end) evs.

(** The texts of the model calls that returned, in order. *)
Definition model_texts (evs : list event) : list str :=
  omap (λ r : exn + str, match r with inr text => Some text | inl _ => None end)
       (model_answers evs).

Definition fetch_error_line (e : exn) : str :=
  lit "❌ Error fetching commit changes: " ++ exn_text e.

Definition comment_url (s : Session) : str :=
  lit "https://api.github.com/repos/" ++ fmt (repo_full_name s)
  ++ lit "/issues/" ++ of_Z (pr_number s) ++ lit "/comments".

Definition feedback_separator : str := lit "

---

".

(** The body that [post_comment] sends for a feedback list. *)
Definition comment_body (fb : list str) : str :=
  lit "### 🎓 კომიტების მიმოხილვა (AI Mentor)

"
  ++ (lit "🎓 **AI Mentor Review** - თითოეული კომიტის დეტალური განხილვა

"
      ++ join feedback_separator fb
      ++ lit "

---

💡 *ეს feedback გენერირებულია AI-ის მიერ. თუ რაიმე გაურკვეველია, ჰკითხე მენტორს!*").

Definition posted_line (status_code : Z) : str :=
  if bool_decide (status_code = 201) then lit "✅ Comment posted successfully!"
  else lit "❌ Failed to post comment: " ++ of_Z status_code.

(** The root of the urls of the REST calls of a run. *)
Definition api_root (repo : option str) : str :=
  lit "https://api.github.com/repos/" ++ fmt repo.

(** What holds of the calls of the loop over the commits: the REST calls
    carry the token and go below the repository, and a prompt is made of
    the task description and of the sections of a list of kept files that
    is not empty. *)
Definition loop_call_ok (token repo : option str) (ec : str) (ev : event) : Prop :=
  match ev with
  | Print _ => True
  | GetCommitChanges url headers _ =>
      headers = github_headers token ∧ api_root repo `prefix_of` url
  | GenerateContent prompt _ =>
      ∃ fs, kept_files fs ≠ []
            ∧ prompt = make_prompt ec (mjoin (file_section <$> kept_files fs))
  | _ => False
  end.

(** The same for the calls of a whole run. *)
Definition run_call_ok (w : World) (ev : event) : Prop :=
  match ev with
  | GetPrCommits url headers _ | GetCommitChanges url headers _
  | PostComment url headers _ _ =>
      headers = github_headers (GITHUB_TOKEN w)
      ∧ api_root (GITHUB_REPOSITORY w) `prefix_of` url
  | GenerateContent prompt _ =>
      ∃ fs, kept_files fs ≠ []
            ∧ prompt = make_prompt (walk_result w (walk w) [])
                         (mjoin (file_section <$> kept_files fs))
  | _ => True
  end.

(** A file read. *)
Definition read_event (ev : event) : Prop :=
  match ev with
  | ReadFile _ _ => True
  | _ => False
  end.

(** A read that gave a text that is not empty. *)
Definition text_read (ev : event) : Prop :=
  match ev with
  | ReadFile _ (inr (_ :: _)) => True
  | _ => False
  end.

Definition found_line (path : str) : str :=
  lit "📋 Found task description: " ++ path.

(** ** Example worlds *)

Definition demo_error : exn := Exception "RuntimeError" (lit "unavailable").

Definition demo_environ : gmap str str :=
  list_to_map
    [ (lit "GEMINI_API_KEY", lit "key");
      (lit "GITHUB_TOKEN", lit "token");
      (lit "GITHUB_REPOSITORY", lit "10x-college/html-forms");
      (lit "GITHUB_EVENT_PATH", lit "/github/workflow/event.json") ].

Definition commit_form : Commit :=
  {| sha := lit "abc1234def5678"; message := lit "add form" |}.

Definition commit_bundle : Commit :=
  {| sha := lit "0123456789abcdef"; message := lit "build" |}.

Definition files_form : list FileInfo :=
  [ {| filename := lit "index.html"; status := lit "modified";
       patch := Some (lit "+<label>Name</label>") |};
    {| filename := lit "logo.png"; status := lit "added"; patch := None |};
    {| filename := lit "notes.md"; status := lit "renamed"; patch := None |} ].

Definition files_bundle : list FileInfo :=
  [ {| filename := lit "dist/bundle.js"; status := lit "added";
       patch := Some (lit "+x") |} ].

Definition demo_detail (url : str) : exn + CommitData :=
  if bool_decide (sha commit_bundle `suffix_of` url)
  then inr {| files := Some files_bundle |}
  else inr {| files := Some files_form |}.

Definition demo_tree : tree :=
  Tree [ (lit "node_modules",
          Some (Tree [] [(lit "README.md", inr (lit "a package"))]));
         (lit "docs",
          Some (Tree [] [(lit "TASK.md", inr (lit "Build a form."))])) ]
       [ (lit "index.html", inr (lit "<html>"));
         (lit "README.md", inl demo_error) ].

Definition empty_readme_tree : tree :=
  Tree [ (lit "docs",
          Some (Tree [] [(lit "TASK.md", inr (lit "Build a form."))])) ]
       [ (lit "README.md", inr []);
         (lit "task.md", inr (lit "Top task.")) ].

Definition demo_world (env : gmap str str) (t : tree) (generate : exn + str)
  : World :=
  {| environ := env;
     unicode_lower := id;
     load_json := λ _, inr {| pull_request := Some {| number := 7 |} |};
     working_tree := Some t;
     github_pr_commits := λ _ _ _, inr [commit_form; commit_bundle];
     github_commit := λ _ url _, demo_detail url;
     gemini_generate := λ _ _, generate;
     github_post := λ _ _ _ _, inr 201 |}.

Definition world_ok : World :=
  demo_world demo_environ demo_tree (inr (lit " Well done. ")).

Definition world_model_down : World :=
  demo_world demo_environ demo_tree (inl demo_error).

Definition world_no_key : World :=
  demo_world (delete (lit "GEMINI_API_KEY") demo_environ) demo_tree
    (inr (lit "Well done.")).

Definition world_no_event_path : World :=
  demo_world (delete (lit "GITHUB_EVENT_PATH") demo_environ) demo_tree
    (inr (lit "Well done.")).

Definition world_empty_readme : World :=
  demo_world demo_environ empty_readme_tree (inr (lit "Well done.")).

Definition demo_session : Session :=
  {| github_token := Some (lit "token");
     repo_full_name := Some (lit "10x-college/html-forms");
     pr_number := 7 |}.

(** A world like [world_ok] but for the event, the answer of the call that
    lists the commits and the answer of the commit-detail calls. *)
Definition demo_world_with (event_data : EventData)
    (commits : exn + list Commit) (detail : exn + CommitData) : World :=
  {| environ := demo_environ;
     unicode_lower := id;
     load_json := λ _, inr event_data;
     working_tree := Some demo_tree;
     github_pr_commits := λ _ _ _, commits;
     github_commit := λ _ _ _, detail;
     gemini_generate := λ _ _, inr (lit "Well done.");
     github_post := λ _ _ _ _, inr 403 |}.

Definition pull_request_event : EventData :=
  {| pull_request := Some {| number := 7 |} |}.

Definition push_event : EventData := {| pull_request := None |}.

Definition world_detail_down : World :=
  demo_world_with pull_request_event (inr [commit_form]) (inl demo_error).

Definition world_list_down : World :=
  demo_world_with pull_request_event (inl demo_error)
    (inr {| files := Some files_form |}).

Definition world_push : World :=
  demo_world_with push_event (inr [commit_form])
    (inr {| files := Some files_form |}).

Definition world_post_refused : World :=
  demo_world_with pull_request_event (inr [commit_form])
    (inr {| files := Some files_form |}).

(** * Properties *)

(** ** Strings *)

Lemma contains_spec sub s : contains sub s = true ↔ occurs_in sub s.
Proof.
  induction s as [|c s IH]; simpl.
  - rewrite orb_false_r, bool_decide_eq_true. split.
    + intros [k Hk]. by exists [], k.
    + intros (a & b & H). symmetry in H.
      apply app_eq_nil in H as [-> H]. apply app_eq_nil in H as [-> ->].
      by exists [].
  - rewrite orb_true_iff, bool_decide_eq_true, IH. split.
    + intros [[k Hk] | (a & b & H)].
      * by exists [], k.
      * exists (c :: a), b. by rewrite H.
    + intros (a & b & H). destruct a as [|c' a]; simpl in H.
      * left. by exists b.
      * right. exists a, b. by simplify_eq.
Qed.

Lemma startswith_spec s p : startswith s p = true ↔ p `prefix_of` s.
Proof. unfold startswith. by rewrite bool_decide_eq_true. Qed.

(** The bound that [splitext] gives to its loop is enough: the loop does
    not depend on the bound once it covers the distance to the last dot. *)
Lemma splitext_loop_bound n p filenameIndex dotIndex :
  (Z.to_nat (dotIndex - filenameIndex) ≤ n)%nat →
  PosixPath.splitext_loop n p filenameIndex dotIndex =
  PosixPath.splitext_loop (Z.to_nat (dotIndex - filenameIndex)) p
    filenameIndex dotIndex.
Proof.
  revert filenameIndex.
  induction n as [|n IH]; intros i Hn.
  - by replace (Z.to_nat (dotIndex - i)) with 0%nat by lia.
  - destruct (Z.to_nat (dotIndex - i)) as [|m] eqn:Hm.
    + cbn [PosixPath.splitext_loop]. rewrite bool_decide_false by lia. done.
    + cbn [PosixPath.splitext_loop]. case_bool_decide; [|done].
      case_bool_decide; [done|].
      rewrite IH by lia. f_equal. lia.
Qed.

Example splitext_plain :
  PosixPath.splitext (lit "src/app.test.js") = (lit "src/app.test", lit ".js").
Proof. vm_compute. reflexivity. Qed.

Example splitext_dot_file :
  PosixPath.splitext (lit "src/.gitignore") = (lit "src/.gitignore", lit "").
Proof. vm_compute. reflexivity. Qed.

Example splitext_dotted_directory :
  PosixPath.splitext (lit "a/b.c/d") = (lit "a/b.c/d", lit "").
Proof. vm_compute. reflexivity. Qed.

Example splitext_leading_dots :
  PosixPath.splitext (lit "a/...gz") = (lit "a/...gz", lit "").
Proof. vm_compute. reflexivity. Qed.

Example lit_decodes_utf8 : lit "აბ ✅ x" = [4304; 4305; 32; 9989; 32; 120]%N.
Proof. vm_compute. reflexivity. Qed.

Example of_Z_negative : of_Z (-15) = lit "-15".
Proof. vm_compute. reflexivity. Qed.

Example strip_both_sides : strip (lit "  a b
 ") = lit "a b".
Proof. vm_compute. reflexivity. Qed.

(** ** The file filter *)

Lemma ignore_dir_loop_spec dirs p :
  ignore_dir_loop dirs p = true ↔
  ∃ d, d ∈ dirs ∧
       (occurs_in (lit "/" ++ d ++ lit "/") p ∨ (d ++ lit "/") `prefix_of` p).
Proof.
  induction dirs as [|d dirs IH]; simpl.
  - split; [done | intros (d & Hd & _); by apply elem_of_nil in Hd].
  - destruct (contains _ p || startswith p _) eqn:E.
    + split; [intros _ | done]. exists d. split; [left|].
      apply orb_true_iff in E as [E|E].
      * left. by apply contains_spec.
      * right. by apply startswith_spec.
    + apply orb_false_iff in E as [E1 E2]. rewrite IH. split.
      * intros (d' & Hd' & H). exists d'. split; [by right | done].
      * intros (d' & Hd' & H). apply elem_of_cons in Hd' as [-> | Hd'].
        -- destruct H as [H | H].
           ++ apply contains_spec in H. congruence.
           ++ apply startswith_spec in H. congruence.
        -- by exists d'.
Qed.

Lemma ignore_dir_loop_ignored p :
  ignore_dir_loop (elements IGNORE_DIRS) p = true ↔ in_ignored_dir p.
Proof.
  rewrite ignore_dir_loop_spec. unfold in_ignored_dir.
  split; intros (d & Hd & H); exists d; (split; [|done]);
    by apply elem_of_elements.
Qed.

Lemma empty_not_supported : ([] : str) ∉ SUPPORTED_EXTENSIONS.
Proof. apply (bool_decide_unpack _). vm_compute. exact I. Qed.

Lemma should_ignore_file_true p :
  should_ignore_file p = true ↔
  in_ignored_dir p ∨ extension p ∉ SUPPORTED_EXTENSIONS.
Proof.
  unfold should_ignore_file, extension.
  destruct (ignore_dir_loop _ p) eqn:E.
  - apply ignore_dir_loop_ignored in E. split; [by left | done].
  - rewrite bool_decide_eq_true. split; [by right |].
    intros [H | H]; [|done].
    apply ignore_dir_loop_ignored in H. congruence.
Qed.

Lemma segments_nonempty p : segments p ≠ [].
Proof.
  destruct p as [|c p]; cbn; [done|].
  case_bool_decide; [done|]. by destruct (segments p).
Qed.

Lemma segments_no_sep d : PosixPath.sep ∉ d → segments d = [d].
Proof.
  induction d as [|c d IH]; intros H; [reflexivity|].
  cbn. rewrite bool_decide_false by (intros ->; apply H; left).
  rewrite IH; [done|]. intros Hd. apply H. by right.
Qed.

Lemma segments_cons_no_sep c p :
  c ≠ PosixPath.sep →
  ∃ s ss, segments p = s :: ss ∧ segments (c :: p) = (c :: s) :: ss.
Proof.
  intros Hc. cbn. rewrite bool_decide_false by done.
  destruct (segments p) as [|s ss] eqn:E; [by destruct (segments_nonempty p)|].
  by exists s, ss.
Qed.

(** A segment without separator, followed by a separator, is the first
    segment. *)
Lemma segments_app_sep_no_sep d r :
  PosixPath.sep ∉ d → segments (d ++ PosixPath.sep :: r) = d :: segments r.
Proof.
  induction d as [|c d IH]; intros H.
  - cbn. by rewrite bool_decide_true.
  - assert (c ≠ PosixPath.sep) by (intros ->; apply H; left).
    cbn [app segments]. rewrite bool_decide_false by done.
    rewrite IH; [done|]. intros Hd. apply H. by right.
Qed.

Lemma segments_app_sep a r :
  segments (a ++ PosixPath.sep :: r) = segments a ++ segments r.
Proof.
  induction a as [|c a IH].
  - cbn. by rewrite bool_decide_true.
  - cbn [app segments]. case_bool_decide.
    + by rewrite IH.
    + rewrite IH. destruct (segments a) as [|s ss] eqn:E;
        [by destruct (segments_nonempty a)|]. done.
Qed.

Lemma removelast_app_nonempty {A} (l k : list A) :
  k ≠ [] → removelast (l ++ k) = l ++ removelast k.
Proof. intros. by apply removelast_app. Qed.

Lemma join_segments p : join [PosixPath.sep] (segments p) = p.
Proof.
  induction p as [|c p IH]; [reflexivity|].
  cbn [segments]. case_bool_decide as Hc.
  - subst c. destruct (segments p) as [|s ss] eqn:E;
      [by destruct (segments_nonempty p)|].
    cbn [join app] in *. by rewrite IH.
  - destruct (segments p) as [|s ss] eqn:E;
      [by destruct (segments_nonempty p)|].
    destruct ss; cbn [join app] in *; by rewrite <- IH.
Qed.

Lemma join_cons sepp (s : str) ss :
  ss ≠ [] → join sepp (s :: ss) = s ++ sepp ++ join sepp ss.
Proof. by destruct ss. Qed.

Lemma join_app_nonempty sepp (a b : list str) :
  a ≠ [] → b ≠ [] → join sepp (a ++ b) = join sepp a ++ sepp ++ join sepp b.
Proof.
  induction a as [|s a IH]; intros Ha Hb; [done|].
  destruct a as [|s' a].
  - cbn [app]. by rewrite join_cons.
  - change ((s :: s' :: a) ++ b) with (s :: ((s' :: a) ++ b)).
    rewrite join_cons by done. rewrite IH by done.
    rewrite (join_cons _ s (s' :: a)) by done. by rewrite <- !app_assoc.
Qed.

Lemma ignore_dirs_no_sep d : d ∈ IGNORE_DIRS → PosixPath.sep ∉ d.
Proof.
  intros Hd. apply elem_of_elements in Hd. revert d Hd.
  apply Forall_forall. apply (bool_decide_unpack _). vm_compute. exact I.
Qed.

Lemma occurs_directories d p :
  PosixPath.sep ∉ d →
  (occurs_in (lit "/" ++ d ++ lit "/") p ∨ (d ++ lit "/") `prefix_of` p)
  ↔ d ∈ directories p.
Proof.
  intros Hd. change (lit "/") with [PosixPath.sep]. unfold directories. split.
  - intros [(a & b & ->) | [k ->]].
    + cbn [app]. rewrite <- !app_assoc. cbn [app].
      rewrite segments_app_sep, segments_app_sep_no_sep by done.
      rewrite removelast_app_nonempty by done.
      apply elem_of_app. right.
      change (d :: segments b) with ([d] ++ segments b).
      rewrite removelast_app_nonempty by apply segments_nonempty. left.
    + rewrite <- app_assoc. cbn [app]. rewrite segments_app_sep_no_sep by done.
      change (d :: segments k) with ([d] ++ segments k).
      rewrite removelast_app_nonempty by apply segments_nonempty. left.
  - intros Hin.
    destruct (exists_last (segments_nonempty p)) as (ini & lst & Hs).
    rewrite Hs, removelast_last in Hin.
    apply list_elem_of_split in Hin as (pre & post & ->).
    rewrite <- (join_segments p), Hs.
    rewrite <- app_assoc. cbn [app].
    assert (Hpost : post ++ [lst] ≠ [])
      by (intros E; apply app_eq_nil in E as [_ E]; discriminate).
    destruct pre as [|s pre].
    + right. cbn [app]. rewrite join_cons by done.
      rewrite (app_assoc d). by apply prefix_app_r.
    + left. rewrite join_app_nonempty by done.
      rewrite (join_cons _ d) by done.
      exists (join [PosixPath.sep] (s :: pre)),
             (join [PosixPath.sep] (post ++ [lst])).
      cbn [app]. by rewrite <- app_assoc.
Qed.

Lemma in_ignored_dir_directories p :
  in_ignored_dir p ↔ ∃ d, d ∈ IGNORE_DIRS ∧ d ∈ directories p.
Proof.
  unfold in_ignored_dir. split; intros (d & Hd & H); exists d; (split; [done|]);
    by apply (occurs_directories d p (ignore_dirs_no_sep d Hd)).
Qed.

Lemma rfind_from_app c s t i last :
  rfind_from c (s ++ t) i last =
  rfind_from c t (i + Z.of_nat (length s)) (rfind_from c s i last).
Proof.
  revert i last. induction s as [|x s IH]; intros i last; cbn [app rfind_from length].
  - by rewrite Z.add_0_r.
  - rewrite IH. f_equal. lia.
Qed.

Lemma rfind_from_notin c s i last : c ∉ s → rfind_from c s i last = last.
Proof.
  revert i last. induction s as [|x s IH]; intros i last H; [reflexivity|].
  cbn [rfind_from]. rewrite bool_decide_false by (intros ->; apply H; left).
  apply IH. intros Hs. apply H. by right.
Qed.

Lemma rfind_from_bound c s i last :
  last < i → last ≤ rfind_from c s i last < i + Z.of_nat (length s).
Proof.
  revert i last. induction s as [|x s IH]; intros i last H; cbn [rfind_from length].
  - lia.
  - case_bool_decide.
    + specialize (IH (i + 1) i). lia.
    + specialize (IH (i + 1) last). lia.
Qed.

Lemma rfind_from_replicate c k i last :
  (0 < k)%nat → rfind_from c (replicate k c) i last = i + Z.of_nat k - 1.
Proof.
  revert i last. induction k as [|k IH]; intros i last Hk; [lia|].
  cbn [replicate rfind_from]. rewrite bool_decide_true by done.
  destruct k as [|k].
  - cbn. lia.
  - rewrite IH by lia. lia.
Qed.

(** The loop of [PosixPath.splitext] falls through when it only meets dots. *)
Lemma splitext_loop_dots n p i dotIndex :
  (∀ j, i ≤ j < i + Z.of_nat n → slice p j (j + 1) = [PosixPath.extsep]) →
  PosixPath.splitext_loop n p i dotIndex = None.
Proof.
  revert i. induction n as [|n IH]; intros i H; [reflexivity|].
  cbn [PosixPath.splitext_loop]. case_bool_decide; [|done].
  rewrite bool_decide_false by (intros Hne; apply Hne, H; lia).
  apply IH. intros j Hj. apply H. lia.
Qed.

Lemma slice_dots pre k rest j :
  Z.of_nat (length pre) ≤ j < Z.of_nat (length pre) + Z.of_nat k →
  slice (pre ++ replicate k PosixPath.extsep ++ rest) j (j + 1) = [PosixPath.extsep].
Proof.
  intros Hj. unfold slice.
  replace (Z.to_nat (j + 1 - j)) with 1%nat by lia.
  replace (Z.to_nat j) with (length pre + (Z.to_nat j - length pre))%nat by lia.
  rewrite drop_app_add.
  set (m := (Z.to_nat j - length pre)%nat).
  assert (Hm : (m < k)%nat) by lia.
  replace k with (m + S (k - S m))%nat by lia.
  rewrite replicate_add, <- app_assoc.
  rewrite drop_app_length' by (by rewrite length_replicate).
  reflexivity.
Qed.

Lemma strip_dots_split d : ∃ k, d = replicate k PosixPath.extsep ++ strip_dots d.
Proof.
  induction d as [|c d [k IH]]; [by exists 0%nat|].
  cbn [strip_dots]. case_bool_decide as Hc.
  - subst c. exists (S k). cbn [replicate app]. by rewrite <- IH.
  - by exists 0%nat.
Qed.

(** A last component whose dots are all leading dots has no extension. *)
Lemma splitext_no_extension pre d :
  (pre = [] ∨ ∃ a, pre = a ++ [PosixPath.sep]) →
  PosixPath.sep ∉ d → PosixPath.extsep ∉ strip_dots d →
  (PosixPath.splitext (pre ++ d)).2 = [].
Proof.
  intros Hpre Hsep Hdots.
  destruct (strip_dots_split d) as [k Hd].
  assert (Hsepk : PosixPath.sep ∉ replicate k PosixPath.extsep ++ strip_dots d) by (by rewrite <- Hd).
  set (rest := strip_dots d) in *. clearbody rest. subst d.
  assert (HsepIndex : rfind PosixPath.sep (pre ++ replicate k PosixPath.extsep ++ rest)
                      = Z.of_nat (length pre) - 1).
  { unfold rfind. rewrite rfind_from_app, (rfind_from_notin _ _ _ _ Hsepk).
    destruct Hpre as [-> | [a ->]]; [reflexivity|].
    rewrite rfind_from_app. cbn [rfind_from]. rewrite bool_decide_true by done.
    rewrite length_app. cbn [length]. lia. }
  unfold PosixPath.splitext. rewrite HsepIndex.
  destruct k as [|k].
  - cbn [replicate app].
    assert (rfind PosixPath.extsep (pre ++ rest) ≤ Z.of_nat (length pre) - 1).
    { unfold rfind. rewrite rfind_from_app, (rfind_from_notin _ _ _ _ Hdots).
      pose proof (rfind_from_bound PosixPath.extsep pre 0 (-1)). lia. }
    rewrite bool_decide_false by lia. reflexivity.
  - assert (HdotIndex : rfind PosixPath.extsep (pre ++ replicate (S k) PosixPath.extsep ++ rest)
                        = Z.of_nat (length pre) + Z.of_nat k).
    { unfold rfind. rewrite rfind_from_app, rfind_from_app.
      rewrite (rfind_from_notin _ _ _ _ Hdots).
      rewrite rfind_from_replicate by lia. lia. }
    rewrite HdotIndex. case_bool_decide; [|reflexivity].
    rewrite splitext_loop_dots; [reflexivity|].
    intros j Hj. apply slice_dots. lia.
Qed.

Lemma ignore_dirs_leading_dots d : d ∈ IGNORE_DIRS → PosixPath.extsep ∉ strip_dots d.
Proof.
  intros Hd. apply elem_of_elements in Hd. revert d Hd.
  apply Forall_forall. apply (bool_decide_unpack _). vm_compute. exact I.
Qed.

Lemma in_ignored_dir_segment p :
  in_ignored_dir p → ∃ d, d ∈ IGNORE_DIRS ∧ d ∈ segments p.
Proof.
  intros H. apply in_ignored_dir_directories in H as (d & Hd & Hin).
  exists d. split; [done|]. unfold directories in Hin.
  destruct (exists_last (segments_nonempty p)) as (ini & lst & Hs).
  rewrite Hs in *. rewrite removelast_last in Hin.
  apply elem_of_app. by left.
Qed.

(** A path whose last segment is a denylisted name has no extension. *)
Lemma last_segment_ignored_no_extension p ini d :
  d ∈ IGNORE_DIRS → segments p = ini ++ [d] → extension p = [].
Proof.
  intros Hd Hs. unfold extension.
  rewrite <- (join_segments p), Hs.
  destruct ini as [|s ini].
  - cbn [app join].
    apply (splitext_no_extension [] d); [by left| |].
    + by apply ignore_dirs_no_sep.
    + by apply ignore_dirs_leading_dots.
  - rewrite join_app_nonempty by done. cbn [join].
    rewrite app_assoc.
    apply splitext_no_extension; [right; by eexists| |].
    + by apply ignore_dirs_no_sep.
    + by apply ignore_dirs_leading_dots.
Qed.

(** The filter read on whole segments: a denylisted name anywhere among
    the segments of the path, the last one included, leads to the same
    answer. *)
Lemma should_ignore_file_segments p :
  should_ignore_file p = true ↔
  (∃ d, d ∈ IGNORE_DIRS ∧ d ∈ segments p)
  ∨ extension p ∉ SUPPORTED_EXTENSIONS.
Proof.
  rewrite should_ignore_file_true. split.
  - intros [H|H]; [left; by apply in_ignored_dir_segment | by right].
  - intros [(d & Hd & Hin)|H]; [|by right].
    destruct (exists_last (segments_nonempty p)) as (ini & lst & Hs).
    rewrite Hs in Hin. apply elem_of_app in Hin as [Hin|Hin].
    + left. apply in_ignored_dir_directories. exists d. split; [done|].
      unfold directories. by rewrite Hs, removelast_last.
    + apply list_elem_of_singleton in Hin as ->. right.
      rewrite (last_segment_ignored_no_extension p ini lst Hd Hs).
      apply empty_not_supported.
Qed.

Example keeps_index_html : should_ignore_file (lit "index.html") = false.
Proof. vm_compute. reflexivity. Qed.

Example ignores_dist_bundle : should_ignore_file (lit "dist/bundle.js") = true.
Proof. vm_compute. reflexivity. Qed.

Example ignores_nested_node_modules :
  should_ignore_file (lit "web/node_modules/x/index.js") = true.
Proof. vm_compute. reflexivity. Qed.

Example keeps_similar_directory : should_ignore_file (lit "bin-utils/run.js") = false.
Proof. vm_compute. reflexivity. Qed.

Example ignores_without_extension : should_ignore_file (lit "Makefile") = true.
Proof. vm_compute. reflexivity. Qed.

(** C1. For every path, [should_ignore_file] is true exactly when the path
    holds a denylisted directory name as a segment (some [/dir/] inside it,
    or some [dir/] at its start, for a [dir] of [IGNORE_DIRS]) or its
    extension is absent or is not in [SUPPORTED_EXTENSIONS]; it is false
    otherwise, that is when no denylisted directory occurs and the
    extension is in the allowlist.  The two substring tests say that a
    denylisted name is one of the directory segments of the path, and the
    answer is the same when the last segment is looked at as well.  The
    result is a function of the path alone. *)
Theorem should_ignore_file_iff (p : str) :
  (should_ignore_file p = true ↔
     in_ignored_dir p ∨ extension p = [] ∨ extension p ∉ SUPPORTED_EXTENSIONS)
  ∧ (should_ignore_file p = false ↔
     ¬ in_ignored_dir p ∧ extension p ≠ [] ∧ extension p ∈ SUPPORTED_EXTENSIONS)
  ∧ (in_ignored_dir p ↔ ∃ d, d ∈ IGNORE_DIRS ∧ d ∈ directories p)
  ∧ (should_ignore_file p = true ↔
     (∃ d, d ∈ IGNORE_DIRS ∧ d ∈ segments p)
     ∨ extension p = [] ∨ extension p ∉ SUPPORTED_EXTENSIONS).
Proof.
  assert (Hempty : extension p = [] → extension p ∉ SUPPORTED_EXTENSIONS).
  { intros ->. apply empty_not_supported. }
  split; [|split; [|split]].
  - rewrite should_ignore_file_true. tauto.
  - rewrite <- not_true_iff_false, should_ignore_file_true.
    destruct (decide (extension p ∈ SUPPORTED_EXTENSIONS)); tauto.
  - apply in_ignored_dir_directories.
  - rewrite should_ignore_file_segments. tauto.
Qed.

Lemma supported_lowercase e : e ∈ SUPPORTED_EXTENSIONS → lower_ascii e = e.
Proof.
  intros He. apply elem_of_elements in He. revert e He.
  apply Forall_forall. apply (bool_decide_unpack _). vm_compute. exact I.
Qed.

Lemma other_case_not_supported ext e :
  e ∈ SUPPORTED_EXTENSIONS → ext ≠ e → lower_ascii ext = lower_ascii e →
  ext ∉ SUPPORTED_EXTENSIONS.
Proof.
  intros He Hne Hlow Hext.
  apply supported_lowercase in He, Hext. congruence.
Qed.

(** C10. Extensions are compared case-sensitively: a path whose extension
    differs from an allowlisted extension only in the case of its letters,
    and which holds no denylisted directory, is ignored, because its
    extension is not in [SUPPORTED_EXTENSIONS]. *)
Theorem should_ignore_file_case_sensitive (p e : str) :
  e ∈ SUPPORTED_EXTENSIONS →
  extension p ≠ e →
  lower_ascii (extension p) = lower_ascii e →
  ¬ in_ignored_dir p →
  should_ignore_file p = true ∧ extension p ∉ SUPPORTED_EXTENSIONS.
Proof.
  intros He Hne Hlow _.
  assert (H : extension p ∉ SUPPORTED_EXTENSIONS)
    by eauto using other_case_not_supported.
  split; [|done]. apply should_ignore_file_true. by right.
Qed.

Lemma should_ignore_file_case_sensitive_witness :
  should_ignore_file (lit "index.HTML") = true
  ∧ extension (lit "index.HTML") ∉ SUPPORTED_EXTENSIONS.
Proof.
  apply (should_ignore_file_case_sensitive (lit "index.HTML") (lit ".html")).
  - apply (bool_decide_unpack _). vm_compute. exact I.
  - vm_compute. discriminate.
  - vm_compute. reflexivity.
  - intros H. apply ignore_dir_loop_ignored in H. vm_compute in H. discriminate.
Defined.

(** ** The changed files of a commit *)

Lemma patch_text_nonempty f :
  default [] (patch f) ≠ [] ↔ patch f ≠ None ∧ patch f ≠ Some [].
Proof. destruct (patch f) as [[|c t]|]; simpl; split; try tauto; try done; intros []; done. Qed.

Lemma changed_files_loop_spec fs changed_content file_count :
  changed_files_loop fs changed_content file_count =
  (changed_content ++ mjoin (file_section <$> kept_files fs),
   file_count + Z.of_nat (length (kept_files fs))).
Proof.
  unfold kept_files.
  revert changed_content file_count.
  induction fs as [|f fs IH]; intros cc n; cbn [changed_files_loop].
  - rewrite filter_nil. cbn [fmap list_fmap mjoin list_join length].
    by rewrite app_nil_r, Z.add_0_r.
  - rewrite filter_cons.
    destruct (should_ignore_file (filename f)) eqn:Hig.
    + rewrite decide_False by (intros [? _]; done). apply IH.
    + case_bool_decide as Hp.
      * rewrite decide_True by (split; [done | by apply patch_text_nonempty]).
        rewrite IH. cbn [fmap list_fmap mjoin list_join length].
        rewrite <- app_assoc. f_equal. lia.
      * rewrite decide_False; [apply IH|].
        intros [_ H]. apply patch_text_nonempty in H. exact (H Hp).
Qed.

Lemma kept_files_spec fs f :
  f ∈ kept_files fs ↔
  f ∈ fs ∧ should_ignore_file (filename f) = false
  ∧ patch f ≠ None ∧ patch f ≠ Some [].
Proof. unfold kept_files. rewrite list_elem_of_filter. tauto. Qed.

Lemma kept_files_nil_count fs :
  Z.of_nat (length (kept_files fs)) = 0 ↔ kept_files fs = [].
Proof. destruct (kept_files fs); cbn [length]; split; (done || lia). Qed.

Lemma kept_files_filtered_nil fs :
  filter (λ f, should_ignore_file (filename f) = false) fs = [] →
  kept_files fs = [].
Proof.
  intros Hnil. destruct (kept_files fs) as [|f k] eqn:E; [done|].
  assert (Hf : f ∈ kept_files fs) by (rewrite E; left).
  apply kept_files_spec in Hf as (Hin & Hpass & _).
  by destruct (filter_nil_not_elem_of _ _ f Hnil Hpass).
Qed.

Lemma occurs_in_section_list (f : FileInfo) (k : list FileInfo) :
  f ∈ k → occurs_in (file_section f) (mjoin (file_section <$> k)).
Proof.
  intros Hf. apply list_elem_of_split in Hf as (k1 & k2 & ->).
  exists (mjoin (file_section <$> k1)), (mjoin (file_section <$> k2)).
  rewrite fmap_app. unfold str. rewrite join_app. reflexivity.
Qed.

Lemma occurs_in_app_r (sub s x : str) : occurs_in sub s → occurs_in sub (x ++ s).
Proof. intros (a & b & ->). exists (x ++ a), b. by rewrite <- app_assoc. Qed.

Lemma occurs_in_app_l (sub s y : str) : occurs_in sub s → occurs_in sub (s ++ y).
Proof. intros (a & b & ->). exists a, (b ++ y). by rewrite <- !app_assoc. Qed.

Lemma occurs_in_prompt ec cc sub : occurs_in sub cc → occurs_in sub (make_prompt ec cc).
Proof.
  intros H. unfold make_prompt.
  do 3 apply occurs_in_app_r. by apply occurs_in_app_l.
Qed.

(** ** One commit *)

(** The run of one iteration of the loop over the commits, case by case. *)
Lemma review_commit_cases w s ec fb c tr :
  let auth := github_headers (github_token s) in
  let r := github_commit w (tr ++ [Print (reviewing_line c)]) (commit_url s c) auth in
  let fetch := [Print (reviewing_line c); GetCommitChanges (commit_url s c) auth r] in
  review_commit w s ec fb c tr =
  match r with
  | inl e =>
      (Returned fb,
       fetch ++ [Print (lit "❌ Error fetching commit changes: " ++ exn_text e)])
  | inr commit_data =>
      let kept := kept_files (default [] (files commit_data)) in
      if decide (kept = []) then
        (Returned fb,
         fetch ++ [Print (lit "⚠️ No relevant files changed in this commit, skipping...")])
      else
        let analyzing :=
          Print (lit "✅ Analyzing " ++ of_Z (Z.of_nat (length kept))
                 ++ lit " changed files...") in
        let prompt := make_prompt ec (mjoin (file_section <$> kept)) in
        let g := gemini_generate w (tr ++ fetch ++ [analyzing]) prompt in
        match g with
        | inl e =>
            (Returned fb,
             fetch ++ [analyzing; GenerateContent prompt g;
                       Print (lit "❌ Gemini Error for commit " ++ take 7 (sha c)
                              ++ lit ": " ++ exn_text e)])
        | inr text =>
            (Returned (fb ++ [format_feedback c (strip text)]),
             fetch ++ [analyzing; GenerateContent prompt g])
        end
  end.
Proof.
  intros auth r fetch. subst auth r fetch.
  unfold review_commit, get_commit_changes, try_except, print, emit, call,
    mbind, M_bind, mret, M_ret, commit_url, reviewing_line.
  cbv zeta.
  destruct (github_commit w _ _ _) as [e|cd].
  - reflexivity.
  - rewrite changed_files_loop_spec, Z.add_0_l. cbn [app].
    case_bool_decide as Hn.
    + apply kept_files_nil_count in Hn. rewrite decide_True by done. reflexivity.
    + rewrite decide_False by (by rewrite <- kept_files_nil_count).
      rewrite <- !app_assoc. cbn [app].
      destruct (gemini_generate _ _ _) as [e|text]; reflexivity.
Qed.

(** Membership in a list that is written out. *)
Ltac elem_cases H :=
  repeat (apply elem_of_cons in H as [H|H];
          [try discriminate H; try (injection H as ?; simplify_eq)|]);
  try (by apply elem_of_nil in H).

(** The loop goes on with the next commit after an iteration that returned. *)
Lemma review_commits_cons w s ec c rest fb tr fb' evs :
  review_commit w s ec fb c tr = (Returned fb', evs) →
  review_commits w s ec (c :: rest) fb tr =
  let '(o, evs') := review_commits w s ec rest fb' (tr ++ evs) in
  (o, evs ++ evs').
Proof.
  intros H. cbn [review_commits]. unfold mbind, M_bind at 1. by rewrite H.
Qed.

(** The text that the code writes for an entry is the entry's header line,
    status line and patch text. *)
Lemma file_section_entry f : file_section f = entry_of f.
Proof.
  assert (H1 : lit " ---
Status: " = lit " ---
" ++ lit "Status: ") by (vm_compute; reflexivity).
  assert (H2 : lit "
Changes:
" = lit "
" ++ lit "Changes:
") by (vm_compute; reflexivity).
  unfold file_section, entry_of, entry_text. rewrite H1, H2.
  rewrite <- !app_assoc. reflexivity.
Qed.

Lemma file_sections_entries (k : list FileInfo) :
  mjoin (file_section <$> k) = mjoin (entry_of <$> k).
Proof.
  induction k as [|f k IH]; [reflexivity|].
  change (file_section f ++ mjoin (file_section <$> k)
          = entry_of f ++ mjoin (entry_of <$> k)).
  by rewrite file_section_entry, IH.
Qed.

Lemma occurs_in_trans (a b c : str) : occurs_in a b → occurs_in b c → occurs_in a c.
Proof.
  intros (x & y & ->) (u & v & ->). exists (u ++ x), (y ++ v).
  by rewrite <- !app_assoc.
Qed.

Lemma occurs_in_refl (a : str) : occurs_in a a.
Proof. exists [], []. by rewrite app_nil_r. Qed.

Lemma occurs_in_entry_text (path status patch : str) :
  occurs_in path (entry_text path status patch)
  ∧ occurs_in status (entry_text path status patch)
  ∧ occurs_in patch (entry_text path status patch).
Proof.
  unfold entry_text. repeat split.
  - apply occurs_in_app_r, occurs_in_app_l, occurs_in_refl.
  - do 3 apply occurs_in_app_r. apply occurs_in_app_l, occurs_in_refl.
  - do 5 apply occurs_in_app_r. apply occurs_in_app_l, occurs_in_refl.
Qed.

Lemma kept_files_idemp fs : kept_files (kept_files fs) = kept_files fs.
Proof.
  unfold kept_files. induction fs as [|f fs IH]; [reflexivity|].
  rewrite filter_cons. destruct (decide _) as [H|H]; [|exact IH].
  rewrite filter_cons, decide_True by exact H. by rewrite IH.
Qed.

(** C2. The file entries that the prompt of a commit embeds are exactly the
    entries of the commit detail that pass the file filter and carry a
    patch text that is neither absent nor empty.  The loop over the files
    leaves in [changed_content] the header line, the status line and the
    patch text of each such entry, in the order of the answer, and nothing
    else: the entries that are filtered out or carry no patch text could be
    dropped from the answer without changing it.  The prompt sent to the
    model holds that text, so the path, the status and the patch text of
    every such entry occur in it, and a prompt is sent only when there is
    such an entry. *)
Theorem prompt_embeds_kept_files w s ec fb c tr o evs url headers commit_data :
  review_commit w s ec fb c tr = (o, evs) →
  GetCommitChanges url headers (inr commit_data) ∈ evs →
  let fs := default [] (files commit_data) in
  (∀ f, f ∈ kept_files fs ↔
        f ∈ fs ∧ should_ignore_file (filename f) = false
        ∧ patch f ≠ None ∧ patch f ≠ Some [])
  ∧ changed_files_loop fs [] 0 =
      (mjoin (entry_of <$> kept_files fs), Z.of_nat (length (kept_files fs)))
  ∧ changed_files_loop fs [] 0 = changed_files_loop (kept_files fs) [] 0
  ∧ (∀ prompt g, GenerateContent prompt g ∈ evs →
       prompt = make_prompt ec (mjoin (entry_of <$> kept_files fs))
       ∧ occurs_in (mjoin (entry_of <$> kept_files fs)) prompt
       ∧ ∀ f, f ∈ kept_files fs →
           ∃ p, patch f = Some p ∧ p ≠ []
                ∧ occurs_in (entry_text (filename f) (status f) p) prompt
                ∧ occurs_in (filename f) prompt
                ∧ occurs_in (status f) prompt
                ∧ occurs_in p prompt)
  ∧ ((∃ prompt g, GenerateContent prompt g ∈ evs) ↔ kept_files fs ≠ []).
Proof.
  intros Hrun Hev fs.
  split; [apply kept_files_spec|].
  split; [by rewrite changed_files_loop_spec, file_sections_entries|].
  split; [by rewrite !changed_files_loop_spec, kept_files_idemp|].
  rewrite review_commit_cases in Hrun. cbv zeta in Hrun.
  destruct (github_commit w _ _ _) as [e|cd].
  { injection Hrun as <- <-. cbn [app] in Hev. elem_cases Hev. }
  assert (cd = commit_data) as ->.
  { destruct (decide _); [|destruct (gemini_generate _ _ _)];
      injection Hrun as <- <-; cbn [app] in Hev; by elem_cases Hev. }
  fold fs in Hrun. destruct (decide (kept_files fs = [])) as [Hk|Hk].
  - injection Hrun as <- <-. cbn [app]. split.
    + intros p g H. elem_cases H.
    + split; [|done]. intros (p & g & H). elem_cases H.
  - rewrite file_sections_entries in Hrun.
    set (prompt := make_prompt ec (mjoin (entry_of <$> kept_files fs))) in *.
    assert (Hall : occurs_in (mjoin (entry_of <$> kept_files fs)) prompt).
    { apply occurs_in_prompt. exists [], []. by rewrite app_nil_r. }
    assert (Hsec : ∀ f, f ∈ kept_files fs →
              ∃ p, patch f = Some p ∧ p ≠ []
                   ∧ occurs_in (entry_text (filename f) (status f) p) prompt
                   ∧ occurs_in (filename f) prompt
                   ∧ occurs_in (status f) prompt
                   ∧ occurs_in p prompt).
    { intros f Hf.
      assert (Hentry : occurs_in (entry_of f) prompt).
      { apply occurs_in_prompt. rewrite <- file_sections_entries.
        rewrite <- file_section_entry. by apply occurs_in_section_list. }
      apply kept_files_spec in Hf as (_ & _ & Hsome & Hne).
      destruct (patch f) as [p|] eqn:Hp; [|done].
      exists p. split; [done|]. split; [intros ->; by apply Hne|].
      unfold entry_of in Hentry. rewrite Hp in Hentry. cbn [default] in Hentry.
      split; [exact Hentry|].
      destruct (occurs_in_entry_text (filename f) (status f) p) as (H1 & H2 & H3).
      repeat split; (eapply occurs_in_trans; [|exact Hentry]); assumption. }
    destruct (gemini_generate _ _ _) as [e|text] eqn:Hg;
      injection Hrun as <- <-; cbn [app]; (split; [|split; [done|]]).
    + intros p g H. by elem_cases H.
    + intros _. eexists _, _. do 3 right. left.
    + intros p g H. by elem_cases H.
    + intros _. eexists _, _. do 3 right. left.
Qed.

(** C4. A commit whose changed-file list is empty once the file filter is
    applied leads to no call of the model: the iteration leaves the
    feedback list as it was, and the loop goes on with the next commit. *)
Theorem no_relevant_files_no_generation
    w s ec fb c tr o evs url headers commit_data :
  review_commit w s ec fb c tr = (o, evs) →
  GetCommitChanges url headers (inr commit_data) ∈ evs →
  filter (λ f, should_ignore_file (filename f) = false)
         (default [] (files commit_data)) = [] →
  o = Returned fb
  ∧ (∀ prompt g, GenerateContent prompt g ∉ evs)
  ∧ ∀ rest,
      review_commits w s ec (c :: rest) fb tr =
      let '(o', evs') := review_commits w s ec rest fb (tr ++ evs) in
      (o', evs ++ evs').
Proof.
  intros Hrun Hev Hnil. apply kept_files_filtered_nil in Hnil.
  pose proof Hrun as Hcases.
  rewrite review_commit_cases in Hcases. cbv zeta in Hcases.
  destruct (github_commit w _ _ _) as [e|cd].
  { injection Hcases as <- <-. cbn [app] in Hev. elem_cases Hev. }
  assert (cd = commit_data) as ->.
  { destruct (decide _); [|destruct (gemini_generate _ _ _)];
      injection Hcases as <- <-; cbn [app] in Hev; by elem_cases Hev. }
  rewrite decide_True in Hcases by done.
  injection Hcases as <- Hevs. split; [done|]. split.
  - intros p g H. rewrite <- Hevs in H. cbn [app] in H. elem_cases H.
  - intros rest. by apply review_commits_cons.
Qed.

(** C5. When the call of the model raises for a commit, no feedback entry
    is appended for it, the iteration returns normally and the loop goes
    on with the next commit. *)
Theorem generation_failure_skips_commit w s ec fb c tr o evs prompt e :
  review_commit w s ec fb c tr = (o, evs) →
  GenerateContent prompt (inl e) ∈ evs →
  o = Returned fb
  ∧ ∀ rest,
      review_commits w s ec (c :: rest) fb tr =
      let '(o', evs') := review_commits w s ec rest fb (tr ++ evs) in
      (o', evs ++ evs').
Proof.
  intros Hrun Hev.
  assert (o = Returned fb) as ->.
  { rewrite review_commit_cases in Hrun. cbv zeta in Hrun.
    destruct (github_commit w _ _ _) as [e'|cd].
    { by injection Hrun as <- <-. }
    destruct (decide _); [by injection Hrun as <- <-|].
    destruct (gemini_generate _ _ _) as [e'|text] eqn:Hg.
    { by injection Hrun as <- <-. }
    injection Hrun as <- <-. cbn [app] in Hev. elem_cases Hev. }
  split; [done|]. intros rest. by apply review_commits_cons.
Qed.

(** ** The loop over the commits *)

Lemma review_commit_summary w s ec fb c tr :
  ∃ fb' evs,
    review_commit w s ec fb c tr = (Returned (fb ++ fb'), evs)
    ∧ (fb' = [] ∨ ∃ text, fb' = [format_feedback c text])
    ∧ detail_calls evs = [commit_url s c]
    ∧ Forall loop_event evs.
Proof.
  rewrite review_commit_cases. cbv zeta.
  destruct (github_commit w _ _ _) as [e|cd].
  { eexists [], _. rewrite app_nil_r. split; [reflexivity|].
    split; [by left|]. split; [reflexivity|]. by repeat constructor. }
  destruct (decide _).
  { eexists [], _. rewrite app_nil_r. split; [reflexivity|].
    split; [by left|]. split; [reflexivity|]. by repeat constructor. }
  destruct (gemini_generate _ _ _) as [e|text].
  - eexists [], _. rewrite app_nil_r. split; [reflexivity|].
    split; [by left|]. split; [reflexivity|]. by repeat constructor.
  - eexists [format_feedback c (strip text)], _. split; [reflexivity|].
    split; [right; by eexists|]. split; [reflexivity|]. by repeat constructor.
Qed.

(** The loop returns; it calls the commit detail once per commit, in
    order, and appends feedback entries of commits taken in order. *)
Lemma review_commits_summary w s ec commits :
  ∀ fb tr, ∃ picks evs,
    review_commits w s ec commits fb tr =
      (Returned (fb ++ ((λ ct, format_feedback ct.1 ct.2) <$> picks)), evs)
    ∧ picks.*1 `sublist_of` commits
    ∧ detail_calls evs = commit_url s <$> commits
    ∧ Forall loop_event evs.
Proof.
  induction commits as [|c rest IH]; intros fb tr.
  - exists [], []. cbn. rewrite app_nil_r.
    split; [reflexivity|]. split; [constructor|]. split; [reflexivity|constructor].
  - destruct (review_commit_summary w s ec fb c tr)
      as (fb1 & evs1 & Hrun & Hfb1 & Hcalls1 & Hev1).
    destruct (IH (fb ++ fb1) (tr ++ evs1))
      as (picks & evs2 & Hrest & Hsub & Hcalls2 & Hev2).
    rewrite (review_commits_cons _ _ _ _ _ _ _ _ _ Hrun), Hrest.
    destruct Hfb1 as [-> | [text ->]].
    + exists picks, (evs1 ++ evs2). rewrite app_nil_r.
      split; [reflexivity|]. split; [by apply sublist_cons|].
      split; [|by apply Forall_app].
      unfold detail_calls in *. rewrite omap_app, Hcalls1, Hcalls2. reflexivity.
    + exists ((c, text) :: picks), (evs1 ++ evs2).
      split; [by rewrite <- app_assoc|]. split; [by apply sublist_skip|].
      split; [|by apply Forall_app].
      unfold detail_calls in *. rewrite omap_app, Hcalls1, Hcalls2. reflexivity.
Qed.

(** ** The task description *)

Lemma files_loop_run w root fs ec tr :
  files_loop w root fs ec tr =
  (Returned (default ec (first_read (dir_candidates w root fs))),
   read_events (dir_candidates w root fs)).
Proof.
  unfold dir_candidates. revert tr.
  induction fs as [|[file content] fs IH]; intros tr; [reflexivity|].
  cbn [files_loop]. rewrite filter_cons. cbn [fst].
  destruct (is_task_file w file) eqn:Hm.
  - rewrite decide_True by done. rewrite fmap_cons. cbn [fst snd].
    unfold mbind, M_bind, try_except, call, print, emit, mret, M_ret.
    destruct content as [e|text]; cbn [first_read read_events app].
    + rewrite IH. reflexivity.
    + reflexivity.
  - rewrite decide_False by done. apply IH.
Qed.

Lemma walk_loop_run w triples ec tr :
  walk_loop w triples ec tr =
  (Returned (walk_result w triples ec), walk_events w triples ec).
Proof.
  revert ec tr. induction triples as [|[root fs] rest IH]; intros ec tr;
    [reflexivity|].
  cbn [walk_loop walk_result walk_events]. unfold mbind, M_bind at 1.
  rewrite files_loop_run.
  repeat case_bool_decide; try contradiction.
  - reflexivity.
  - by rewrite IH.
Qed.

Lemma read_exercise_run w tr :
  read_exercise w tr = (Returned (walk_result w (walk w) []), walk_events w (walk w) []).
Proof. apply walk_loop_run. Qed.

Lemma first_read_app a b :
  first_read (a ++ b) =
  match first_read a with Some t => Some t | None => first_read b end.
Proof. induction a as [|[path [e|t]] a IH]; cbn; done. Qed.

Lemma first_read_first pre path text post :
  Forall (λ q, ∃ e, q.2 = inl e) pre →
  first_read (pre ++ (path, inr text) :: post) = Some text.
Proof.
  induction 1 as [|[p r] pre [e He] _ IH]; [reflexivity|].
  simpl in He. subst r. apply IH.
Qed.

Lemma first_read_none cs :
  (∀ path text, (path, inr text) ∉ cs) → first_read cs = None.
Proof.
  induction cs as [|[path [e|t]] cs IH]; intros H; [reflexivity| |].
  - cbn. apply IH. intros p t Hin. apply (H p t). by right.
  - destruct (H path t). left.
Qed.

Lemma walk_result_none w triples :
  first_read (candidates w triples) = None → walk_result w triples [] = [].
Proof.
  induction triples as [|[root fs] rest IH]; [reflexivity|].
  unfold candidates. rewrite bind_cons. cbn [fst snd].
  rewrite first_read_app. cbn [walk_result].
  destruct (first_read (dir_candidates w root fs)); [done|].
  intros H. cbn [default]. rewrite bool_decide_false by (intros ?; done).
  by apply IH.
Qed.

Lemma walk_result_some w triples text :
  first_read (candidates w triples) = Some text → text ≠ [] →
  walk_result w triples [] = text.
Proof.
  induction triples as [|[root fs] rest IH]; [done|].
  unfold candidates. rewrite bind_cons. cbn [fst snd].
  rewrite first_read_app. cbn [walk_result].
  destruct (first_read (dir_candidates w root fs)) as [t|].
  - intros [= ->] Hne. cbn [default]. by rewrite bool_decide_true.
  - intros H Hne. cbn [default]. rewrite bool_decide_false by (intros ?; done).
    by apply IH.
Qed.

Lemma read_events_logged cs path e :
  ReadFile path (inl e) ∈ read_events cs → could_not_read path e ∈ read_events cs.
Proof.
  induction cs as [|[p [e'|t]] cs IH]; cbn [read_events]; intros H.
  - by apply elem_of_nil in H.
  - apply elem_of_cons in H as [[= -> ->]|H]; [right; left|].
    apply elem_of_cons in H as [H|H]; [discriminate H|].
    do 2 right. by apply IH.
  - elem_cases H.
Qed.

Lemma read_events_file_event cs : Forall file_event (read_events cs).
Proof.
  induction cs as [|[p [e|t]] cs IH]; cbn [read_events]; by repeat constructor.
Qed.

Lemma walk_events_logged w triples ec path e :
  ReadFile path (inl e) ∈ walk_events w triples ec →
  could_not_read path e ∈ walk_events w triples ec.
Proof.
  revert ec. induction triples as [|[root fs] rest IH]; intros ec;
    cbn [walk_events]; intros H.
  - by apply elem_of_nil in H.
  - apply elem_of_app in H as [H|H]; apply elem_of_app.
    + left. by apply read_events_logged.
    + right. case_bool_decide; [by apply elem_of_nil in H|]. by apply IH.
Qed.

Lemma walk_events_file_event w triples ec : Forall file_event (walk_events w triples ec).
Proof.
  revert ec. induction triples as [|[root fs] rest IH]; intros ec;
    cbn [walk_events]; [constructor|].
  apply Forall_app. split; [apply read_events_file_event|].
  case_bool_decide; [constructor | apply IH].
Qed.

(** ** Steps 1 to 7 *)

Lemma secrets_present_test w :
  negb (truthy (GEMINI_API_KEY w)) || negb (truthy (GITHUB_TOKEN w)) = false
  ↔ secrets_present w.
Proof.
  unfold secrets_present.
  destruct (truthy (GEMINI_API_KEY w)), (truthy (GITHUB_TOKEN w)); cbn;
    split; (done || intros []; done).
Qed.

Lemma collect_feedback_run w tr :
  collect_run w (collect_feedback w tr).1 (collect_feedback w tr).2.
Proof.
  unfold collect_feedback.
  fold (GEMINI_API_KEY w) (GITHUB_TOKEN w) (GITHUB_REPOSITORY w) (GITHUB_EVENT_PATH w).
  unfold load_event, get_pr_commits, try_except, raise, call, print, emit,
    mbind, M_bind, mret, M_ret.
  destruct (negb _ || negb _) eqn:Hsec.
  { cbv beta iota. cbn [fst snd app]. apply run_missing_secret. intros H. apply secrets_present_test in H. congruence. }
  apply secrets_present_test in Hsec.
  destruct (GITHUB_EVENT_PATH w) as [path|] eqn:Hpath;
    [|cbv beta iota; cbn [fst snd app]; by apply run_no_event_path].
  cbv beta iota zeta.
  destruct (load_json w path) as [e|event_data] eqn:Hload;
    [cbv beta iota; cbn [fst snd app]; by apply run_load_fails|].
  destruct (pull_request event_data) as [pr|] eqn:Hpr;
    [|cbv beta iota; cbn [fst snd app]; by apply run_not_a_pull_request].
  rewrite read_exercise_run. cbv beta iota zeta.
  destruct (github_pr_commits w _ _ _) as [e|commits].
  - cbn [fst snd].
    match goal with
    | |- collect_run _ _ ?E =>
        replace E with
          (startup_events w path event_data
           ++ [GetPrCommits (pr_commits_url (GITHUB_REPOSITORY w) (number pr))
                 (github_headers (GITHUB_TOKEN w)) (inl e);
               Print (lit "❌ Error fetching commits: " ++ exn_text e)])
    end.
    { by eapply run_fetch_fails. }
    unfold startup_events, setup_events, pr_commits_url.
    cbn [app]. rewrite <- ?app_assoc. reflexivity.
  - match goal with
    | |- context [review_commits ?w ?s ?ec ?cs ?fb ?T] =>
        destruct (review_commits_summary w s ec cs fb T)
          as (picks & evs & -> & Hsub & Hcalls & Hev)
    end.
    cbn [fst snd app].
    match goal with
    | |- collect_run _ _ ?E =>
        replace E with
          (startup_events w path event_data
           ++ [GetPrCommits (pr_commits_url (GITHUB_REPOSITORY w) (number pr))
                 (github_headers (GITHUB_TOKEN w)) (inr commits);
               Print (lit "✅ Found " ++ of_Z (Z.of_nat (length commits))
                      ++ lit " commits")]
           ++ evs)
    end.
    { by eapply run_reviewed. }
    unfold startup_events, setup_events, pr_commits_url.
    cbn [app]. rewrite <- ?app_assoc, ?app_nil_r. reflexivity.
Qed.

(** ** main *)

Lemma file_event_local evs : Forall file_event evs → Forall local_event evs.
Proof. intros H. eapply Forall_impl; [exact H|]. by intros []. Qed.

Lemma local_no_detail_calls evs : Forall local_event evs → detail_calls evs = [].
Proof.
  induction 1 as [|ev evs Hev _ IH]; [reflexivity|].
  unfold detail_calls in *. cbn [omap list_omap]. rewrite IH. by destruct ev.
Qed.

Lemma local_no_pr_commits evs url headers r :
  Forall local_event evs → GetPrCommits url headers r ∉ evs.
Proof.
  intros H Hin. rewrite Forall_forall in H. exact (H _ Hin).
Qed.

Lemma loop_no_pr_commits evs url headers r :
  Forall loop_event evs → GetPrCommits url headers r ∉ evs.
Proof.
  intros H Hin. rewrite Forall_forall in H. exact (H _ Hin).
Qed.

Lemma loop_no_post evs url headers body r :
  Forall loop_event evs → PostComment url headers body r ∉ evs.
Proof.
  intros H Hin. rewrite Forall_forall in H. exact (H _ Hin).
Qed.

Lemma local_no_post evs url headers body r :
  Forall local_event evs → PostComment url headers body r ∉ evs.
Proof.
  intros H Hin. rewrite Forall_forall in H. exact (H _ Hin).
Qed.

Lemma startup_events_local w path event_data :
  Forall local_event (startup_events w path event_data).
Proof.
  unfold startup_events, setup_events.
  repeat (apply Forall_app; split); try by repeat constructor.
  apply file_event_local, walk_events_file_event.
Qed.

#[local] Opaque startup_events.

(** Step 8 prints, or posts once and prints. *)
Lemma publish_run w s fb tr :
  (fb = [] ∧ publish w s fb tr = (Returned tt, [Print no_feedback_line]))
  ∨ (fb ≠ [] ∧ ∃ url headers body r,
       (publish w s fb tr).2 = [PostComment url headers body r]
       ∨ ∃ line, publish w s fb tr = (Returned tt, [PostComment url headers body r; Print line])).
Proof.
  unfold publish. case_bool_decide as Hfb; [left; split; [done|reflexivity]|right].
  split; [done|]. unfold post_comment, call, print, emit, mbind, M_bind.
  cbv zeta.
  destruct (github_post w _ _ _ _) as [e|code] eqn:Hpost.
  - eexists _, _, _, _. left. reflexivity.
  - case_bool_decide; eexists _, _, _, _; right; eexists; reflexivity.
Qed.

Lemma publish_no_detail_calls w s fb tr : detail_calls (publish w s fb tr).2 = [].
Proof.
  destruct (publish_run w s fb tr)
    as [[_ ->] | [_ (url & h & b & r & [-> | [line ->]])]]; reflexivity.
Qed.

(** [main] is steps 1 to 7 followed by step 8. *)
Lemma run_unfold w :
  run w =
  match collect_feedback w [] with
  | (Returned None, evs) => (Returned tt, evs)
  | (Returned (Some (s, fb)), evs) =>
      let '(o, evs') := publish w s fb evs in (o, evs ++ evs')
  | (Raised e, evs) => (Raised e, evs)
  end.
Proof.
  unfold run, main, mbind, M_bind.
  destruct (collect_feedback w []) as [[[[s fb]|]|e] evs]; cbn [app].
  - reflexivity.
  - unfold mret, M_ret. by rewrite app_nil_r.
  - reflexivity.
Qed.

Lemma collect_feedback_inv w tr o evs :
  collect_feedback w tr = (o, evs) → collect_run w o evs.
Proof. intros H. pose proof (collect_feedback_run w tr) as R. by rewrite H in R. Qed.

Lemma collect_run_no_post w o evs url headers body r :
  collect_run w o evs → PostComment url headers body r ∉ evs.
Proof.
  intros H Hin. destruct H;
    repeat (apply elem_of_app in Hin as [Hin|Hin]);
    first [ by eapply local_no_post; [apply startup_events_local|exact Hin]
          | by eapply local_no_post;
              [apply file_event_local, walk_events_file_event|exact Hin]
          | by eapply loop_no_post; [eassumption|exact Hin]
          | unfold setup_events in Hin; by elem_cases Hin ].
Qed.

Lemma secret_missing_truthy v : secret_missing v ↔ truthy v = false.
Proof.
  unfold secret_missing. destruct v as [[|c t]|]; cbn; split; try done;
    try (by left); try (by right); intros [|]; done.
Qed.

(** C7. When the AI API key or the repository token is absent or empty,
    the run prints one diagnostic and returns: it performs no network call,
    so no commit list and no commit detail is fetched, the model is not
    called and no comment is posted. *)
Theorem missing_secret_halts_before_network (w : World) :
  secret_missing (GEMINI_API_KEY w) ∨ secret_missing (GITHUB_TOKEN w) →
  run w = (Returned tt, [Print missing_secret_line])
  ∧ Forall (λ ev, ¬ network_event ev) (run w).2.
Proof.
  intros Hmiss.
  assert (Hno : ¬ secrets_present w).
  { intros [Hk Ht]. destruct Hmiss as [H|H];
      apply secret_missing_truthy in H; congruence. }
  assert (Hrun : run w = (Returned tt, [Print missing_secret_line])).
  { rewrite run_unfold.
    destruct (collect_feedback w []) as [o evs] eqn:H.
    apply collect_feedback_inv in H. destruct H; done. }
  split; [done|]. rewrite Hrun. cbn [snd].
  repeat constructor. by intros [].
Qed.

(** C6. When the feedback list is empty once the loop over the commits
    has finished, the run prints a warning and returns normally, and no
    comment is posted at any point of the run. *)
Theorem empty_feedback_never_posts (w : World) (s : Session) (evs : list event) :
  collect_feedback w [] = (Returned (Some (s, [])), evs) →
  run w = (Returned tt, evs ++ [Print no_feedback_line])
  ∧ ∀ url headers body r, PostComment url headers body r ∉ (run w).2.
Proof.
  intros H.
  assert (Hrun : run w = (Returned tt, evs ++ [Print no_feedback_line])).
  { rewrite run_unfold, H.
    destruct (publish_run w s [] evs) as [[_ ->] | [Hne _]]; done. }
  split; [done|]. intros url headers body r. rewrite Hrun. cbn [snd].
  intros Hin. apply elem_of_app in Hin as [Hin|Hin]; [|by elem_cases Hin].
  apply collect_feedback_inv in H. by eapply collect_run_no_post.
Qed.

(** C3. When the call that lists the commits of the pull request answers
    with N commits, the loop over them finishes; the run calls the commit
    detail exactly N times, once per commit and in the order of the list;
    and the feedback list holds at most N entries, which are the entries
    of commits taken in the order of the list. *)
Theorem one_detail_call_per_commit (w : World) url headers (commits : list Commit) :
  GetPrCommits url headers (inr commits) ∈ (run w).2 →
  ∃ s fb evs picks,
    collect_feedback w [] = (Returned (Some (s, fb)), evs)
    ∧ detail_calls (run w).2 = commit_url s <$> commits
    ∧ length (detail_calls (run w).2) = length commits
    ∧ fb = (λ ct, format_feedback ct.1 ct.2) <$> picks
    ∧ picks.*1 `sublist_of` commits
    ∧ (length fb ≤ length commits)%nat.
Proof.
  rewrite run_unfold.
  destruct (collect_feedback w []) as [o evs] eqn:H.
  pose proof (collect_feedback_inv _ _ _ _ H) as R.
  destruct R as [| | | | |path event_data pr commits' picks evs' Hs Hp Hl Hpr Hsub Hcalls Hloop].
  1-5: cbn [snd]; intros Hin; exfalso;
    repeat (apply elem_of_app in Hin as [Hin|Hin]);
    first [ by eapply local_no_pr_commits; [apply startup_events_local|exact Hin]
          | by eapply local_no_pr_commits;
              [apply file_event_local, walk_events_file_event|exact Hin]
          | unfold setup_events in Hin; by elem_cases Hin ].
  destruct (publish w _ _ _) as [o' evs''] eqn:Hpub. cbn [snd].
  assert (Hd : detail_calls evs'' = []).
  { pose proof (publish_no_detail_calls w (session w pr)
      ((λ ct, format_feedback ct.1 ct.2) <$> picks)
      (startup_events w path event_data
       ++ [GetPrCommits (pr_commits_url (GITHUB_REPOSITORY w) (number pr))
             (github_headers (GITHUB_TOKEN w)) (inr commits');
           Print (lit "✅ Found " ++ of_Z (Z.of_nat (length commits'))
                  ++ lit " commits")] ++ evs')) as Hq.
    by rewrite Hpub in Hq. }
  assert (Hp' : ∀ r, GetPrCommits url headers r ∉ evs'').
  { intros r Hin.
    destruct (publish_run w (session w pr)
      ((λ ct, format_feedback ct.1 ct.2) <$> picks)
      (startup_events w path event_data
       ++ [GetPrCommits (pr_commits_url (GITHUB_REPOSITORY w) (number pr))
             (github_headers (GITHUB_TOKEN w)) (inr commits');
           Print (lit "✅ Found " ++ of_Z (Z.of_nat (length commits'))
                  ++ lit " commits")] ++ evs'))
      as [[_ Hq] | [_ (u & h & b & r' & [Hq | [line Hq]])]];
      rewrite Hpub in Hq; simplify_eq/=; by elem_cases Hin. }
  intros Hin.
  assert (commits' = commits) as ->.
  { repeat (apply elem_of_app in Hin as [Hin|Hin]).
    - by destruct (local_no_pr_commits _ _ _ _ (startup_events_local w path event_data) Hin).
    - by elem_cases Hin.
    - by destruct (loop_no_pr_commits _ _ _ _ Hloop Hin).
    - by destruct (Hp' _ Hin). }
  eexists (session w pr), ((λ ct, format_feedback ct.1 ct.2) <$> picks), _, picks.
  split; [reflexivity|].
  assert (Hcalls' : detail_calls
     ((startup_events w path event_data
       ++ [GetPrCommits (pr_commits_url (GITHUB_REPOSITORY w) (number pr))
             (github_headers (GITHUB_TOKEN w)) (inr commits);
           Print (lit "✅ Found " ++ of_Z (Z.of_nat (length commits))
                  ++ lit " commits")] ++ evs') ++ evs'')
     = commit_url (session w pr) <$> commits).
  { unfold detail_calls in *. rewrite !omap_app, Hcalls, Hd.
    fold (detail_calls (startup_events w path event_data)).
    rewrite (local_no_detail_calls _ (startup_events_local w path event_data)).
    cbn [omap list_omap app]. by rewrite app_nil_r. }
  split; [exact Hcalls'|]. split; [by rewrite Hcalls', length_fmap|].
  split; [reflexivity|]. split; [done|].
  rewrite length_fmap, <- (length_fmap fst picks). by apply sublist_length.
Qed.

Lemma publish_no_pr_commits w s fb tr url headers r :
  GetPrCommits url headers r ∉ (publish w s fb tr).2.
Proof.
  destruct (publish_run w s fb tr)
    as [[_ ->] | [_ (u & h & b & r' & [-> | [line ->]])]];
    cbn [snd]; intros Hin; elem_cases Hin.
Qed.

Lemma last_two {A} (l : list A) (a b : A) : last (l ++ [a; b]) = Some b.
Proof. change [a; b] with ([a] ++ [b]). by rewrite app_assoc, last_snoc. Qed.

(** C9, as the code has it. The conditions that [main] guards end the run
    by a normal return after a printed diagnostic: a missing secret, an
    event that is no pull request, and a failure of the call that lists
    the commits.  The event payload is loaded outside any [try]: when the
    path variable is unset, or the file cannot be read or parsed, the
    exception leaves [main]. *)
Theorem guarded_fatal_conditions_return (w : World) :
  (¬ secrets_present w → run w = (Returned tt, [Print missing_secret_line]))
  ∧ (∀ path event_data,
       secrets_present w → GITHUB_EVENT_PATH w = Some path →
       load_json w path = inr event_data → pull_request event_data = None →
       (run w).1 = Returned tt
       ∧ last (run w).2 = Some (Print not_a_pull_request_line))
  ∧ (∀ url headers e,
       GetPrCommits url headers (inl e) ∈ (run w).2 →
       (run w).1 = Returned tt
       ∧ last (run w).2
         = Some (Print (lit "❌ Error fetching commits: " ++ exn_text e)))
  ∧ (secrets_present w → GITHUB_EVENT_PATH w = None →
     (run w).1 = Raised no_event_path)
  ∧ (∀ path e,
       secrets_present w → GITHUB_EVENT_PATH w = Some path →
       load_json w path = inl e →
       (run w).1 = Raised e).
Proof.
  rewrite run_unfold.
  destruct (collect_feedback w []) as [o evs] eqn:H.
  pose proof (collect_feedback_inv _ _ _ _ H) as R.
  split; [|split; [|split; [|split]]].
  - intros Hno. destruct R; done.
  - intros path ed Hs Hp Hl Hpr.
    destruct R; try done; congruence.
  - intros url headers e.
    destruct R as [| | | |path ed pr e' _ _ _ _
                  |path ed pr commits picks evs' _ _ _ _ _ _ Hloop];
      cbn [fst snd]; intros Hin.
    1-4: exfalso; repeat (apply elem_of_app in Hin as [Hin|Hin]);
           unfold setup_events in Hin; by elem_cases Hin.
    + assert (e' = e) as ->.
      { repeat (apply elem_of_app in Hin as [Hin|Hin]).
        - by destruct (local_no_pr_commits _ _ _ _
                         (startup_events_local w path ed) Hin).
        - by elem_cases Hin. }
      split; [done|]. apply last_two.
    + exfalso.
      pose proof (publish_no_pr_commits w (session w pr)
        ((λ ct, format_feedback ct.1 ct.2) <$> picks)
        (startup_events w path ed
         ++ [GetPrCommits (pr_commits_url (GITHUB_REPOSITORY w) (number pr))
               (github_headers (GITHUB_TOKEN w)) (inr commits);
             Print (lit "✅ Found " ++ of_Z (Z.of_nat (length commits))
                    ++ lit " commits")] ++ evs') url headers (inl e)) as Hq.
      destruct (publish w _ _ _) as [o' evs'']. cbn [snd] in *.
      repeat (apply elem_of_app in Hin as [Hin|Hin]).
      * by destruct (local_no_pr_commits _ _ _ _
                       (startup_events_local w path ed) Hin).
      * by elem_cases Hin.
      * by destruct (loop_no_pr_commits _ _ _ _ Hloop Hin).
      * by destruct (Hq Hin).
  - intros Hs Hp. destruct R; try done; congruence.
  - intros path e Hs Hp Hl. destruct R; try done; cbn [fst]; congruence.
Qed.

(** The walk is top-down and in listing order, and it does not enter a
    denylisted directory. *)
Lemma os_walk_unfold top dirs entries :
  os_walk top (Tree dirs entries) =
  (top, entries) ::
  (filter (λ d, d.1 ∉ IGNORE_DIRS) dirs ≫=
     λ d, match d.2 with
          | Some t => os_walk (PosixPath.join top d.1) t
          | None => []
          end).
Proof.
  cbn [os_walk]. f_equal.
  induction dirs as [|[d sub] dirs IH]; [reflexivity|].
  rewrite filter_cons. cbn [fst].
  destruct (decide (d ∉ IGNORE_DIRS)) as [Hd|Hd].
  - rewrite bool_decide_true by exact Hd.
    rewrite bind_cons. cbn [snd fst]. by rewrite IH.
  - rewrite bool_decide_false by exact Hd. cbn [app]. by rewrite IH.
Qed.

(** C8, as the code has it. Step 3 reads the task files (names that match
    [readme.md], [task.md], [exercise.md] or [assignment.md] without regard
    to case) in the order of the top-down walk that skips the denylisted
    directories.  A file that cannot be read is logged and the search goes
    on with the next task file.  The result is the content of the first
    task file that can be read, when this content is not empty; it is empty
    when there is no task file or none can be read.  The step performs
    file reads and prints only, and always returns. *)
Theorem read_exercise_first_readable (w : World) (tr : trace) :
  ∃ text evs,
    read_exercise w tr = (Returned text, evs)
    ∧ Forall file_event evs
    ∧ (∀ path e, ReadFile path (inl e) ∈ evs → could_not_read path e ∈ evs)
    ∧ ((∀ path t, (path, inr t) ∉ candidates w (walk w)) → text = [])
    ∧ (∀ pre path t post,
         candidates w (walk w) = pre ++ (path, inr t) :: post →
         Forall (λ q, ∃ e, q.2 = inl e) pre →
         t ≠ [] → text = t).
Proof.
  exists (walk_result w (walk w) []), (walk_events w (walk w) []).
  split; [apply read_exercise_run|].
  split; [apply walk_events_file_event|].
  split; [intros path e; apply walk_events_logged|].
  split.
  - intros Hnone. by apply walk_result_none, first_read_none.
  - intros pre path t post Hc Hpre Hne.
    apply walk_result_some; [|done]. rewrite Hc. by apply first_read_first.
Qed.

(** ** Example runs and counterexamples *)

Example run_world_ok_outcome : (run world_ok).1 = Returned tt.
Proof. vm_compute. reflexivity. Qed.

Example run_world_ok_feedback :
  (collect_feedback world_ok []).1 =
  Returned (Some (demo_session, [format_feedback commit_form (lit "Well done.")])).
Proof. vm_compute. reflexivity. Qed.

Example run_world_ok_calls :
  detail_calls (run world_ok).2 =
  [ lit "https://api.github.com/repos/10x-college/html-forms/commits/abc1234def5678";
    lit "https://api.github.com/repos/10x-college/html-forms/commits/0123456789abcdef" ].
Proof. vm_compute. reflexivity. Qed.

Example format_feedback_head :
  format_feedback commit_form (lit "ok") = lit "**[`abc1234`]** add form

ok".
Proof. vm_compute. reflexivity. Qed.

Example segments_of_path :
  segments (lit "src/dist/app.js") = [lit "src"; lit "dist"; lit "app.js"].
Proof. vm_compute. reflexivity. Qed.

Example walk_skips_node_modules :
  (walk world_ok).*1 = [lit "."; lit "./docs"].
Proof. vm_compute. reflexivity. Qed.

(** A task file that reads as the empty text ends the search in its own
    directory only: the walk goes on with the next directories. *)
Example read_exercise_empty_first_file :
  (read_exercise world_empty_readme []).1 = Returned (lit "Build a form.").
Proof. vm_compute. reflexivity. Qed.

(** C8, counterexample: the first task file of the walk, [./README.md],
    cannot be read; the claim gives the empty string, the code goes on and
    returns the content of [./docs/TASK.md]. *)
Lemma read_exercise_counterexample :
  first_task_file_content world_ok = []
  ∧ (read_exercise world_ok []).1 = Returned (lit "Build a form.")
  ∧ (read_exercise world_ok []).1 ≠ Returned (first_task_file_content world_ok).
Proof.
  split; [vm_compute; reflexivity|].
  split; [vm_compute; reflexivity|].
  vm_compute. discriminate.
Qed.

(** C9, counterexample: with the secrets set and [GITHUB_EVENT_PATH] unset,
    [open(None)] raises [TypeError] and the exception leaves [main]. *)
Lemma uncaught_exception_counterexample :
  (run world_no_event_path).1 = Raised no_event_path
  ∧ ¬ ∃ evs, run world_no_event_path = (Returned tt, evs).
Proof.
  split; [vm_compute; reflexivity|].
  intros [evs H]. vm_compute in H. discriminate.
Qed.

(** ** Witnesses *)

Lemma prompt_embeds_kept_files_witness :
  (∀ prompt g,
     GenerateContent prompt g
     ∈ (review_commit world_ok demo_session (lit "Build a form.") []
          commit_form []).2 →
     prompt = make_prompt (lit "Build a form.")
                (mjoin (entry_of <$> kept_files files_form))
     ∧ occurs_in (mjoin (entry_of <$> kept_files files_form)) prompt
     ∧ ∀ f, f ∈ kept_files files_form →
         ∃ p, patch f = Some p ∧ p ≠ []
              ∧ occurs_in (entry_text (filename f) (status f) p) prompt
              ∧ occurs_in (filename f) prompt
              ∧ occurs_in (status f) prompt
              ∧ occurs_in p prompt)
  ∧ ((∃ prompt g,
        GenerateContent prompt g
        ∈ (review_commit world_ok demo_session (lit "Build a form.") []
             commit_form []).2)
     ↔ kept_files files_form ≠ []).
Proof.
  refine (proj2 (proj2 (proj2
    (prompt_embeds_kept_files world_ok demo_session (lit "Build a form.") []
       commit_form [] _ _ (commit_url demo_session commit_form)
       (github_headers (Some (lit "token"))) {| files := Some files_form |}
       (surjective_pairing _) _)))).
  apply (list_elem_of_lookup_2 _ 1). vm_compute. reflexivity.
Defined.

Lemma no_relevant_files_no_generation_witness :
  (review_commit world_ok demo_session [] [] commit_bundle []).1 = Returned [].
Proof.
  refine (proj1
    (no_relevant_files_no_generation world_ok demo_session [] [] commit_bundle []
       _ _ (commit_url demo_session commit_bundle)
       (github_headers (Some (lit "token"))) {| files := Some files_bundle |}
       (surjective_pairing _) _ _)).
  - apply (list_elem_of_lookup_2 _ 1). vm_compute. reflexivity.
  - vm_compute. reflexivity.
Defined.

Lemma generation_failure_skips_commit_witness :
  (review_commit world_model_down demo_session [] [] commit_form []).1
  = Returned [].
Proof.
  refine (proj1
    (generation_failure_skips_commit world_model_down demo_session [] []
       commit_form [] _ _
       (make_prompt [] (mjoin (file_section <$> kept_files files_form)))
       demo_error (surjective_pairing _) _)).
  apply (list_elem_of_lookup_2 _ 3). vm_compute. reflexivity.
Defined.

Lemma one_detail_call_per_commit_witness :
  ∃ s fb evs picks,
    collect_feedback world_ok [] = (Returned (Some (s, fb)), evs)
    ∧ detail_calls (run world_ok).2 = commit_url s <$> [commit_form; commit_bundle]
    ∧ length (detail_calls (run world_ok).2) = length [commit_form; commit_bundle]
    ∧ fb = (λ ct, format_feedback ct.1 ct.2) <$> picks
    ∧ picks.*1 `sublist_of` [commit_form; commit_bundle]
    ∧ (length fb ≤ length [commit_form; commit_bundle])%nat.
Proof.
  apply (one_detail_call_per_commit world_ok
           (pr_commits_url (Some (lit "10x-college/html-forms")) 7)
           (github_headers (Some (lit "token")))).
  apply (list_elem_of_lookup_2 _ 8). vm_compute. reflexivity.
Defined.

Lemma empty_feedback_never_posts_witness :
  run world_model_down =
  (Returned tt,
   (collect_feedback world_model_down []).2 ++ [Print no_feedback_line]).
Proof.
  refine (proj1
    (empty_feedback_never_posts world_model_down demo_session
       (collect_feedback world_model_down []).2 _)).
  vm_compute. reflexivity.
Defined.

Lemma missing_secret_halts_before_network_witness :
  run world_no_key = (Returned tt, [Print missing_secret_line]).
Proof.
  refine (proj1 (missing_secret_halts_before_network world_no_key _)).
  left. left. vm_compute. reflexivity.
Defined.

Lemma guarded_fatal_conditions_return_witness :
  run world_no_key = (Returned tt, [Print missing_secret_line])
  ∧ (run world_no_event_path).1 = Raised no_event_path.
Proof.
  split.
  - refine (proj1 (guarded_fatal_conditions_return world_no_key) _).
    intros [H _]. vm_compute in H. discriminate.
  - refine (proj1 (proj2 (proj2 (proj2
      (guarded_fatal_conditions_return world_no_event_path)))) _ _).
    + split; vm_compute; reflexivity.
    + vm_compute. reflexivity.
Defined.

Lemma read_exercise_first_readable_witness :
  ∃ text evs,
    read_exercise world_ok [] = (Returned text, evs)
    ∧ text = lit "Build a form.".
Proof.
  destruct (read_exercise_first_readable world_ok [])
    as (text & evs & Hrun & _ & _ & _ & Hfirst).
  exists text, evs. split; [exact Hrun|].
  apply (Hfirst [(lit "./README.md", inl demo_error)] (lit "./docs/TASK.md")
           (lit "Build a form.") []).
  - vm_compute. reflexivity.
  - repeat constructor. by exists demo_error.
  - vm_compute. discriminate.
Defined.

(** * Further properties *)

Lemma ignore_dir_loop_permutation dirs1 dirs2 p :
  dirs1 ≡ₚ dirs2 → ignore_dir_loop dirs1 p = ignore_dir_loop dirs2 p.
Proof.
  intros Hperm.
  destruct (ignore_dir_loop dirs2 p) eqn:E2.
  - apply ignore_dir_loop_spec. apply ignore_dir_loop_spec in E2 as (d & Hd & H).
    exists d. split; [by rewrite Hperm | done].
  - apply not_true_iff_false. intros E1. apply not_true_iff_false in E2. apply E2.
    apply ignore_dir_loop_spec. apply ignore_dir_loop_spec in E1 as (d & Hd & H).
    exists d. split; [by rewrite <- Hperm | done].
Qed.

(** X1. The answer of [should_ignore_file] does not depend on the order in
    which the loop meets the names of [IGNORE_DIRS]. *)
Theorem should_ignore_file_any_order (dirs : list str) (p : str) :
  dirs ≡ₚ elements IGNORE_DIRS →
  (if ignore_dir_loop dirs p then true
   else bool_decide (extension p ∉ SUPPORTED_EXTENSIONS))
  = should_ignore_file p.
Proof.
  intros Hperm. unfold should_ignore_file, extension.
  by rewrite (ignore_dir_loop_permutation _ _ p Hperm).
Qed.

(** [rfind] gives the place of the last occurrence. *)
Lemma rfind_spec c s :
  (rfind c s = (-1) ∧ c ∉ s)
  ∨ ∃ a b, s = a ++ c :: b ∧ (c ∉ b) ∧ rfind c s = Z.of_nat (length a).
Proof.
  induction s as [|x s IH] using rev_ind.
  - left. split; [reflexivity|]. apply not_elem_of_nil.
  - unfold rfind in *. rewrite rfind_from_app. cbn [rfind_from].
    case_bool_decide as Hx.
    + subst x. right. exists s, []. split; [done|]. split; [apply not_elem_of_nil|lia].
    + destruct IH as [[Hr Hn] | (a & b & -> & Hb & Hr)].
      * left. split; [done|]. rewrite elem_of_app, list_elem_of_singleton.
        intros [?|?]; [done|congruence].
      * right. exists a, (b ++ [x]). split; [by rewrite <- app_assoc|].
        split; [|done]. rewrite elem_of_app, list_elem_of_singleton.
        intros [?|?]; [done|congruence].
Qed.

Lemma splitext_loop_some n p i dotIndex r :
  PosixPath.splitext_loop n p i dotIndex = Some r →
  r = (slice_to p dotIndex, slice_from p dotIndex) ∧ i < dotIndex.
Proof.
  revert i. induction n as [|n IH]; intros i; cbn [PosixPath.splitext_loop]; [done|].
  case_bool_decide; [|done]. case_bool_decide.
  - intros [= <-]. done.
  - intros H'. apply IH in H' as [-> ?]. split; [done|lia].
Qed.

Lemma drop_after_middle {A} (a b : list A) x :
  drop (S (length a)) (a ++ x :: b) = b.
Proof.
  change (a ++ x :: b) with (a ++ [x] ++ b). rewrite app_assoc.
  apply drop_app_length'. rewrite length_app. cbn. lia.
Qed.

(** The shape of what [os.path.splitext] returns: the two parts make up
    the path; the extension is empty, or it starts at the last dot, holds
    no other dot and no separator, and leaves a root that is not empty. *)
Lemma splitext_shape p :
  path_root p ++ extension p = p
  ∧ (extension p = []
     ∨ ∃ rest, extension p = PosixPath.extsep :: rest
               ∧ (PosixPath.extsep ∉ rest)
               ∧ (PosixPath.sep ∉ rest)
               ∧ path_root p ≠ []).
Proof.
  unfold path_root, extension, PosixPath.splitext.
  case_bool_decide as Hgt; [|cbn; rewrite app_nil_r; by split; [|left]].
  destruct (PosixPath.splitext_loop _ _ _ _) as [r|] eqn:Hloop;
    [|cbn; rewrite app_nil_r; by split; [|left]].
  apply splitext_loop_some in Hloop as [-> Hlt].
  cbn [fst snd]. unfold slice_to, slice_from. split; [apply take_drop|].
  right.
  pose proof (rfind_from_bound PosixPath.sep p 0 (-1)) as Hsb.
  destruct (rfind_spec PosixPath.extsep p) as [[Hr _] | (a & b & Hp & Hb & Hr)].
  { unfold rfind in *. lia. }
  rewrite Hr, Nat2Z.id. exists b.
  assert (Hdrop : drop (length a) p = PosixPath.extsep :: b).
  { rewrite Hp at 1. by rewrite drop_app_length. }
  split; [done|]. split; [done|]. split.
  - destruct (rfind_spec PosixPath.sep p) as [[_ Hn] | (a' & b' & Hp' & Hb' & Hr')].
    + intros Hin. apply Hn. rewrite Hp. apply elem_of_app. right. by right.
    + intros Hin. apply Hb'.
      assert (Hlen : (length a' < length a)%nat) by lia.
      assert (Hb1 : b = drop (S (length a)) p)
        by (rewrite Hp at 1; by rewrite drop_after_middle).
      assert (Hb2 : b' = drop (S (length a')) p)
        by (rewrite Hp' at 1; by rewrite drop_after_middle).
      replace (S (length a)) with (S (length a') + (length a - length a'))%nat
        in Hb1 by lia.
      rewrite <- drop_drop, <- Hb2 in Hb1. rewrite Hb1 in Hin.
      by apply (subseteq_drop _ _ _ Hin).
  - rewrite Hp. rewrite take_app_length.
    intros ->. cbn [length] in *. unfold rfind in *. lia.
Qed.

Lemma supported_extension_shape e :
  e ∈ SUPPORTED_EXTENSIONS →
  ∃ rest, e = PosixPath.extsep :: rest ∧ (PosixPath.extsep ∉ rest)
          ∧ (PosixPath.sep ∉ rest).
Proof.
  intros He. apply elem_of_elements in He. revert e He.
  apply Forall_forall.
  assert (Hdec : Forall (λ e : str,
            head e = Some PosixPath.extsep ∧ (PosixPath.extsep ∉ tail e)
            ∧ (PosixPath.sep ∉ tail e)) (elements SUPPORTED_EXTENSIONS)).
  { apply (bool_decide_unpack _). vm_compute. exact I. }
  eapply Forall_impl; [exact Hdec|].
  intros [|c rest]; [by intros [? _]|]. cbn [head tail].
  intros ([= ->] & ? & ?). by exists rest.
Qed.

(** X2. A path that passes the filter is a root that is not empty followed by
    one of the allowlisted extensions. *)
Theorem kept_path_ends_with_supported_extension (p : str) :
  should_ignore_file p = false →
  ∃ root e, p = root ++ e ∧ root ≠ [] ∧ e ∈ SUPPORTED_EXTENSIONS
            ∧ e = extension p.
Proof.
  intros H. apply not_true_iff_false in H.
  rewrite should_ignore_file_true in H.
  destruct (decide (extension p ∈ SUPPORTED_EXTENSIONS)) as [He|He]; [|tauto].
  destruct (splitext_shape p) as [Hp [Hnil | (rest & _ & _ & _ & Hroot)]].
  - rewrite Hnil in He. by destruct (empty_not_supported He).
  - exists (path_root p), (extension p). by rewrite Hp.
Qed.

Lemma splitext_loop_finds n p i dotIndex j :
  i ≤ j < i + Z.of_nat n → j < dotIndex →
  slice p j (j + 1) ≠ [PosixPath.extsep] →
  PosixPath.splitext_loop n p i dotIndex
  = Some (slice_to p dotIndex, slice_from p dotIndex).
Proof.
  revert i. induction n as [|n IH]; intros i Hj Hlt Hne; [lia|].
  cbn [PosixPath.splitext_loop]. rewrite bool_decide_true by lia.
  case_bool_decide as Hi; [done|].
  apply IH; [|done|done].
  assert (j ≠ i) by (intros ->; by apply Hne). lia.
Qed.

(** The extension of a named file: a name with a character that is not a
    dot, followed by a dot and a rest without dot or separator. *)
Lemma splitext_named_file pre name rest :
  (pre = [] ∨ ∃ a, pre = a ++ [PosixPath.sep]) →
  PosixPath.sep ∉ name →
  (∃ c, c ∈ name ∧ c ≠ PosixPath.extsep) →
  PosixPath.extsep ∉ rest → PosixPath.sep ∉ rest →
  PosixPath.splitext (pre ++ name ++ PosixPath.extsep :: rest)
  = (pre ++ name, PosixPath.extsep :: rest).
Proof.
  intros Hpre Hname (c & Hc & Hcdot) Hrest Hrestsep.
  set (p := pre ++ name ++ PosixPath.extsep :: rest).
  assert (HsepIndex : rfind PosixPath.sep p = Z.of_nat (length pre) - 1).
  { unfold rfind, p. rewrite rfind_from_app.
    rewrite rfind_from_notin.
    - destruct Hpre as [-> | [a ->]]; [reflexivity|].
      rewrite rfind_from_app. cbn [rfind_from]. rewrite bool_decide_true by done.
      rewrite length_app. cbn [length]. lia.
    - rewrite elem_of_app, elem_of_cons. intros [?|[?|?]]; done. }
  assert (HdotIndex : rfind PosixPath.extsep p
                      = Z.of_nat (length pre) + Z.of_nat (length name)).
  { unfold rfind, p. rewrite app_assoc.
    change (PosixPath.extsep :: rest) with ([PosixPath.extsep] ++ rest).
    rewrite !rfind_from_app. rewrite (rfind_from_notin _ rest) by done.
    cbn [rfind_from]. rewrite bool_decide_true by done.
    rewrite length_app. lia. }
  apply list_elem_of_split in Hc as (n1 & n2 & Hn).
  assert (Hlen : length name = (length n1 + S (length n2))%nat)
    by (rewrite Hn, length_app; reflexivity).
  unfold PosixPath.splitext. fold p. rewrite HsepIndex, HdotIndex.
  rewrite bool_decide_true by lia.
  rewrite (splitext_loop_finds _ p _ _
             (Z.of_nat (length pre) + Z.of_nat (length n1))); [| lia | lia |].
  - unfold slice_to, slice_from.
    replace (Z.to_nat (Z.of_nat (length pre) + Z.of_nat (length name)))
      with (length (pre ++ name)) by (rewrite length_app; lia).
    unfold p. rewrite app_assoc.
    by rewrite take_app_length, drop_app_length.
  - unfold slice.
    replace (Z.to_nat (Z.of_nat (length pre) + Z.of_nat (length n1)))
      with (length (pre ++ n1)) by (rewrite length_app; lia).
    replace (Z.to_nat _) with 1%nat by lia.
    unfold p. rewrite Hn. rewrite <- (app_assoc n1), app_assoc.
    rewrite drop_app_length. cbn. congruence.
Qed.

(** X3. A named file with an allowlisted extension, outside the denylisted
    directories, passes the filter. *)
Theorem named_supported_file_is_kept (pre name e : str) :
  (pre = [] ∨ ∃ a, pre = a ++ [PosixPath.sep]) →
  PosixPath.sep ∉ name →
  (∃ c, c ∈ name ∧ c ≠ PosixPath.extsep) →
  e ∈ SUPPORTED_EXTENSIONS →
  ¬ in_ignored_dir (pre ++ name ++ e) →
  should_ignore_file (pre ++ name ++ e) = false.
Proof.
  intros Hpre Hname Hc He Hdir.
  destruct (supported_extension_shape e He) as (rest & -> & Hdot & Hsep).
  apply not_true_iff_false. rewrite should_ignore_file_true.
  intros [H|H]; [done|]. apply H. unfold extension.
  by rewrite splitext_named_file.
Qed.

Lemma walk_result_dir_texts w triples :
  walk_result w triples [] =
  default [] (head (filter (λ t : str, t ≠ [])
                      (omap (λ rf, first_read (dir_candidates w rf.1 rf.2)) triples))).
Proof.
  induction triples as [|[root fs] rest IH]; [reflexivity|].
  cbn [walk_result omap list_omap fst snd].
  destruct (first_read (dir_candidates w root fs)) as [t|]; cbn [default]; unfold id.
  - rewrite filter_cons. destruct (decide (t ≠ [])) as [Hne|He].
    + case_bool_decide; [reflexivity | contradiction].
    + case_bool_decide; [contradiction|].
      assert (t = []) as -> by (by destruct t). apply IH.
  - case_bool_decide; [contradiction | apply IH].
Qed.

(** X4. Step 3 gives the first text that is not empty among the directories'
    first readable task files; it gives the empty text when there is
    none. *)
Theorem read_exercise_result (w : World) (tr : trace) :
  (read_exercise w tr).1
  = Returned (default [] (head (filter (λ t : str, t ≠ []) (dir_texts w)))).
Proof.
  rewrite read_exercise_run. cbn [fst]. f_equal. apply walk_result_dir_texts.
Qed.

Lemma descend_path_cons top d names :
  descend_path top (d :: names) = descend_path (PosixPath.join top d) names.
Proof. reflexivity. Qed.

Lemma os_walk_roots :
  ∀ t top root fs,
    (root, fs) ∈ os_walk top t →
    ∃ names, root = descend_path top names
             ∧ Forall (λ n, n ∉ IGNORE_DIRS) names.
Proof.
  fix IH 1. intros [dirs entries] top root fs Hin.
  cbn [os_walk] in Hin. apply elem_of_cons in Hin as [[= -> ->]|Hin].
  { exists []. split; [reflexivity|constructor]. }
  induction dirs as [|[d sub] dirs IHd]; [by apply elem_of_nil in Hin|].
  apply elem_of_app in Hin as [Hin|Hin]; [|by apply IHd].
  case_bool_decide as Hd; [|by apply elem_of_nil in Hin].
  destruct sub as [t'|]; [|by apply elem_of_nil in Hin].
  destruct (IH t' _ _ _ Hin) as (names & -> & Hnames).
  exists (d :: names). split; [by rewrite descend_path_cons|]. by constructor.
Qed.

Lemma read_events_inv cs path r :
  ReadFile path r ∈ read_events cs → (path, r) ∈ cs.
Proof.
  induction cs as [|[p [e|t]] cs IH]; cbn [read_events]; intros H.
  - by apply elem_of_nil in H.
  - apply elem_of_cons in H as [[= -> ->]|H]; [left|].
    apply elem_of_cons in H as [H|H]; [discriminate H|].
    right. by apply IH.
  - apply elem_of_cons in H as [[= -> ->]|H]; [left|].
    apply elem_of_cons in H as [H|H]; [discriminate H|].
    by apply elem_of_nil in H.
Qed.

Lemma walk_events_inv w triples ec path r :
  ReadFile path r ∈ walk_events w triples ec →
  ∃ root fs file,
    (root, fs) ∈ triples ∧ (file, r) ∈ fs
    ∧ is_task_file w file = true ∧ path = PosixPath.join root file.
Proof.
  revert ec. induction triples as [|[root fs] rest IH]; intros ec;
    cbn [walk_events]; intros H.
  - by apply elem_of_nil in H.
  - apply elem_of_app in H as [H|H].
    + apply read_events_inv in H. unfold dir_candidates in H.
      apply list_elem_of_fmap in H as ([file r'] & [= -> ->] & Hin).
      apply list_elem_of_filter in Hin as [Htask Hin].
      exists root, fs, file. split; [left|]. done.
    + case_bool_decide; [by apply elem_of_nil in H|].
      destruct (IH _ H) as (root' & fs' & file & Hin & ?).
      exists root', fs', file. split; [by right|done].
Qed.

(** X5. Step 3 opens task files only, and none below a denylisted directory:
    every file it reads has a task-file name and lies in a directory
    reached from the working directory through names that are not in
    [IGNORE_DIRS]. *)
Theorem read_exercise_reads_task_files_only (w : World) (tr : trace) path r :
  ReadFile path r ∈ (read_exercise w tr).2 →
  ∃ names file,
    path = PosixPath.join (descend_path (lit ".") names) file
    ∧ Forall (λ n, n ∉ IGNORE_DIRS) names
    ∧ is_task_file w file = true.
Proof.
  rewrite read_exercise_run. cbn [snd]. intros H.
  apply walk_events_inv in H as (root & fs & file & Hin & _ & Htask & ->).
  unfold walk in Hin. destruct (working_tree w) as [t|];
    [|by apply elem_of_nil in Hin].
  apply os_walk_roots in Hin as (names & -> & Hnames).
  by exists names, file.
Qed.

(** X7. When the commit-detail call raises, the iteration prints the error and
    ends: the model is not called, the feedback list is left as it was and
    the loop goes on with the next commit. *)
Theorem detail_failure_skips_commit w s ec fb c tr o evs url headers e :
  review_commit w s ec fb c tr = (o, evs) →
  GetCommitChanges url headers (inl e) ∈ evs →
  o = Returned fb
  ∧ evs = [Print (reviewing_line c); GetCommitChanges url headers (inl e);
           Print (fetch_error_line e)]
  ∧ ∀ rest,
      review_commits w s ec (c :: rest) fb tr =
      let '(o', evs') := review_commits w s ec rest fb (tr ++ evs) in
      (o', evs ++ evs').
Proof.
  intros Hrun Hev. pose proof Hrun as Hcases.
  rewrite review_commit_cases in Hcases. cbv zeta in Hcases.
  destruct (github_commit w _ _ _) as [e'|cd].
  - injection Hcases as <- <-. cbn [app] in Hev. elem_cases Hev.
    split; [done|]. split; [reflexivity|].
    intros rest. by apply review_commits_cons.
  - exfalso. destruct (decide _); [|destruct (gemini_generate _ _ _)];
      injection Hcases as <- <-; cbn [app] in Hev; elem_cases Hev.
Qed.

Lemma lstrip_head s : lstrip s = [] ∨ ∃ c r, lstrip s = c :: r ∧ isspace c = false.
Proof.
  induction s as [|c s IH]; [by left|]. cbn [lstrip].
  destruct (isspace c) eqn:E; [done|]. right. by exists c, s.
Qed.

Lemma lstrip_keeps_last s c :
  isspace c = false → ∃ r, lstrip (s ++ [c]) = r ++ [c].
Proof.
  intros Hc. induction s as [|x s IH]; cbn [app lstrip].
  - rewrite Hc. by exists [].
  - destruct (isspace x); [done|]. by exists (x :: s).
Qed.

(** [strip] leaves no white space at either end. *)
Lemma strip_ends s :
  strip s = []
  ∨ ∃ c1 c2, head (strip s) = Some c1 ∧ last (strip s) = Some c2
             ∧ isspace c1 = false ∧ isspace c2 = false.
Proof.
  unfold strip.
  destruct (lstrip_head s) as [-> | (c & r & -> & Hc)]; [by left|].
  right. cbn [rev].
  destruct (lstrip_keeps_last (rev r) c Hc) as [r' Hr].
  destruct (lstrip_head (rev r ++ [c])) as [Hnil | (c2 & r2 & Heq & Hc2)].
  { rewrite Hr in Hnil. by destruct r'. }
  rewrite Hr in Heq |- *. rewrite rev_app_distr. cbn [rev app].
  destruct r' as [|x r'].
  - exists c, c. done.
  - cbn [app] in Heq. injection Heq as -> _.
    exists c, c2. cbn [rev head]. split; [done|].
    split; [|done]. change (c :: rev r' ++ [c2]) with ((c :: rev r') ++ [c2]).
    apply last_snoc.
Qed.

(** X8. When the model call returns, the iteration appends one entry: the
    short hash and the message of the commit, a blank line, and the answer
    without white space at either end. *)
Theorem generation_success_appends_entry w s ec fb c tr o evs prompt text :
  review_commit w s ec fb c tr = (o, evs) →
  GenerateContent prompt (inr text) ∈ evs →
  o = Returned (fb ++ [lit "**[`" ++ take 7 (sha c) ++ lit "`]** "
                       ++ message c ++ lit "

" ++ strip text])
  ∧ (strip text = []
     ∨ ∃ c1 c2, head (strip text) = Some c1 ∧ last (strip text) = Some c2
                ∧ isspace c1 = false ∧ isspace c2 = false).
Proof.
  intros Hrun Hev. split; [|apply strip_ends].
  rewrite review_commit_cases in Hrun. cbv zeta in Hrun.
  destruct (github_commit w _ _ _) as [e'|cd].
  { injection Hrun as <- <-. cbn [app] in Hev. elem_cases Hev. }
  destruct (decide _).
  { injection Hrun as <- <-. cbn [app] in Hev. elem_cases Hev. }
  destruct (gemini_generate _ _ _) as [e'|text'];
    injection Hrun as <- <-; cbn [app] in Hev; elem_cases Hev.
  reflexivity.
Qed.

Lemma review_commit_answers w s ec fb c tr :
  ∃ evs,
    (review_commit w s ec fb c tr).2 = evs
    ∧ (length (model_answers evs) ≤ 1)%nat
    ∧ (review_commit w s ec fb c tr).1
      = Returned (fb ++ (format_feedback c <$> (strip <$> model_texts evs))).
Proof.
  rewrite review_commit_cases. cbv zeta.
  destruct (github_commit w _ _ _) as [e|cd].
  { eexists. split; [reflexivity|]. cbn. rewrite app_nil_r. split; [lia|done]. }
  destruct (decide _).
  { eexists. split; [reflexivity|]. cbn. rewrite app_nil_r. split; [lia|done]. }
  destruct (gemini_generate _ _ _) as [e|text].
  - eexists. split; [reflexivity|]. cbn. rewrite app_nil_r. split; [lia|done].
  - eexists. split; [reflexivity|]. cbn. split; [lia|done].
Qed.

Lemma model_answers_app evs1 evs2 :
  model_answers (evs1 ++ evs2) = model_answers evs1 ++ model_answers evs2.
Proof. apply omap_app. Qed.

Lemma model_texts_app evs1 evs2 :
  model_texts (evs1 ++ evs2) = model_texts evs1 ++ model_texts evs2.
Proof. unfold model_texts. by rewrite model_answers_app, omap_app. Qed.

(** X9. The loop calls the model at most once per commit, and the entries it
    appends are in number and in order the answers that the model
    returned: each entry ends with one of them, stripped. *)
Theorem feedback_follows_model_answers w s ec (commits : list Commit) fb tr :
  ∃ picks evs,
    review_commits w s ec commits fb tr
    = (Returned (fb ++ ((λ ct, format_feedback ct.1 ct.2) <$> picks)), evs)
    ∧ picks.*2 = strip <$> model_texts evs
    ∧ (length (model_answers evs) ≤ length commits)%nat.
Proof.
  revert fb tr. induction commits as [|c rest IH]; intros fb tr.
  - exists [], []. cbn. rewrite app_nil_r. done.
  - destruct (review_commit_answers w s ec fb c tr) as (evs1 & Hevs & Hlen & Hout).
    destruct (review_commit w s ec fb c tr) as [o1 evs1'] eqn:Hrun.
    cbn [fst snd] in *. subst evs1' o1.
    destruct (IH (fb ++ (format_feedback c <$> (strip <$> model_texts evs1)))
                (tr ++ evs1)) as (picks & evs2 & Hrest & Hpicks & Hlen2).
    rewrite (review_commits_cons _ _ _ _ _ _ _ _ _ Hrun), Hrest.
    exists (((λ t, (c, t)) <$> (strip <$> model_texts evs1)) ++ picks), (evs1 ++ evs2).
    split; [|split].
    + rewrite fmap_app, <- !list_fmap_compose, app_assoc. reflexivity.
    + rewrite fmap_app, model_texts_app, fmap_app, Hpicks.
      f_equal. rewrite <- !list_fmap_compose. reflexivity.
    + rewrite model_answers_app, length_app. cbn [length]. lia.
Qed.

(** The run of step 8 on a feedback list that is not empty. *)
Lemma publish_cases w s fb tr :
  fb ≠ [] →
  let r := github_post w tr (comment_url s) (github_headers (github_token s))
             (comment_body fb) in
  let post := PostComment (comment_url s) (github_headers (github_token s))
                (comment_body fb) r in
  publish w s fb tr =
  match r with
  | inl e => (Raised e, [post])
  | inr status_code => (Returned tt, [post; Print (posted_line status_code)])
  end.
Proof.
  intros Hfb r post. subst r post.
  unfold publish. rewrite bool_decide_false by done.
  unfold post_comment, call, print, emit, mbind, M_bind, comment_url,
    comment_body, feedback_separator, posted_line.
  cbv zeta.
  destruct (github_post w _ _ _ _) as [e|code]; [reflexivity|].
  case_bool_decide; reflexivity.
Qed.

Lemma occurs_in_join sepp (l : list str) (x : str) :
  x ∈ l → occurs_in x (join sepp l).
Proof.
  induction l as [|y l IH]; intros Hx; [by apply elem_of_nil in Hx|].
  destruct l as [|z l].
  - apply list_elem_of_singleton in Hx as ->. exists [], []. cbn.
    by rewrite app_nil_r.
  - apply elem_of_cons in Hx as [->|Hx].
    + exists [], (sepp ++ join sepp (z :: l)). reflexivity.
    + change (join sepp (y :: z :: l)) with (y ++ sepp ++ join sepp (z :: l)).
      by apply occurs_in_app_r, occurs_in_app_r, IH.
Qed.

Lemma occurs_in_comment_body fb entry :
  entry ∈ fb → occurs_in entry (comment_body fb).
Proof.
  intros H. unfold comment_body.
  apply occurs_in_app_r, occurs_in_app_r, occurs_in_app_l.
  by apply occurs_in_join.
Qed.

(** X12. When the feedback list is not empty after the loop, the run posts one
    comment: the call follows everything done before, it goes to the
    issue of the pull request, its body holds every feedback entry, no
    comment was posted before it and no network call follows it. *)
Theorem nonempty_feedback_posts_once (w : World) (s : Session) fb evs :
  collect_feedback w [] = (Returned (Some (s, fb)), evs) →
  fb ≠ [] →
  ∃ r rest,
    (run w).2 = evs ++ PostComment (comment_url s)
                         (github_headers (github_token s)) (comment_body fb) r
                       :: rest
    ∧ (∀ url headers body r', PostComment url headers body r' ∉ evs)
    ∧ Forall (λ ev, ¬ network_event ev) rest
    ∧ ∀ entry, entry ∈ fb → occurs_in entry (comment_body fb).
Proof.
  intros H Hfb. rewrite run_unfold, H, (publish_cases w s fb evs Hfb).
  cbv zeta.
  assert (Hnone : ∀ url headers body r', PostComment url headers body r' ∉ evs).
  { intros. apply collect_feedback_inv in H. by eapply collect_run_no_post. }
  destruct (github_post w _ _ _ _) as [e|code]; cbn [snd].
  - eexists _, []. split; [reflexivity|]. split; [done|].
    split; [constructor|]. apply occurs_in_comment_body.
  - eexists _, [_]. split; [reflexivity|]. split; [done|].
    split; [repeat constructor; by intros []|]. apply occurs_in_comment_body.
Qed.

(** X13. How the run ends after the post call: an answer with status 201 or
    any other status is printed and [main] returns; an exception raised by
    the call leaves [main]. *)
Theorem post_outcome (w : World) url headers body r :
  PostComment url headers body r ∈ (run w).2 →
  match r with
  | inl e => (run w).1 = Raised e
  | inr status_code =>
      (run w).1 = Returned tt
      ∧ last (run w).2 = Some (Print (posted_line status_code))
  end.
Proof.
  rewrite run_unfold.
  destruct (collect_feedback w []) as [o evs] eqn:H.
  pose proof (collect_feedback_inv _ _ _ _ H) as R.
  assert (Hnone : PostComment url headers body r ∉ evs)
    by (by eapply collect_run_no_post).
  destruct o as [[[s fb]|]|e]; cbn [snd]; [|done|done].
  destruct (decide (fb = [])) as [->|Hfb].
  { destruct (publish_run w s [] evs) as [[_ ->] | [Hne _]]; [|done].
    cbn [snd]. intros Hin. apply elem_of_app in Hin as [Hin|Hin]; [done|].
    elem_cases Hin. }
  rewrite (publish_cases w s fb evs Hfb). cbv zeta.
  destruct (github_post w _ _ _ _) as [e|code]; cbn [fst snd]; intros Hin;
    (apply elem_of_app in Hin as [Hin|Hin]; [done|]); elem_cases Hin.
  - reflexivity.
  - split; [reflexivity|]. apply last_two.
Qed.

#[local] Transparent startup_events.

Lemma api_root_prefix repo (rest : str) :
  api_root repo `prefix_of` lit "https://api.github.com/repos/" ++ fmt repo ++ rest.
Proof. unfold api_root. rewrite app_assoc. by apply prefix_app_r. Qed.

Lemma review_commit_calls w s ec fb c tr :
  Forall (loop_call_ok (github_token s) (repo_full_name s) ec)
         (review_commit w s ec fb c tr).2.
Proof.
  rewrite review_commit_cases. cbv zeta.
  assert (Hurl : api_root (repo_full_name s) `prefix_of` commit_url s c)
    by apply api_root_prefix.
  destruct (github_commit w _ _ _) as [e|cd].
  { cbn [snd app]. repeat constructor; done. }
  destruct (decide _) as [|Hk].
  { cbn [snd app]. repeat constructor; done. }
  destruct (gemini_generate _ _ _) as [e|text]; cbn [snd app];
    repeat constructor; try done; by eexists.
Qed.

Lemma review_commits_calls w s ec commits :
  ∀ fb tr,
    Forall (loop_call_ok (github_token s) (repo_full_name s) ec)
           (review_commits w s ec commits fb tr).2.
Proof.
  induction commits as [|c rest IH]; intros fb tr; [constructor|].
  pose proof (review_commit_calls w s ec fb c tr) as H1.
  destruct (review_commit_summary w s ec fb c tr) as (fb1 & evs1 & Hrun & _).
  rewrite (review_commits_cons _ _ _ _ _ _ _ _ _ Hrun).
  rewrite Hrun in H1. cbn [snd] in H1.
  specialize (IH (fb ++ fb1) (tr ++ evs1)).
  destruct (review_commits w s ec rest _ _) as [o evs2]. cbn [snd] in *.
  by apply Forall_app.
Qed.

Lemma loop_call_ok_run w ec ev :
  ec = walk_result w (walk w) [] →
  loop_call_ok (GITHUB_TOKEN w) (GITHUB_REPOSITORY w) ec ev → run_call_ok w ev.
Proof. intros ->. by destruct ev. Qed.

Lemma file_event_call_ok w evs : Forall file_event evs → Forall (run_call_ok w) evs.
Proof. intros H. eapply Forall_impl; [exact H|]. by intros []. Qed.

Lemma collect_feedback_calls w tr :
  Forall (run_call_ok w) (collect_feedback w tr).2.
Proof.
  unfold collect_feedback.
  fold (GEMINI_API_KEY w) (GITHUB_TOKEN w) (GITHUB_REPOSITORY w) (GITHUB_EVENT_PATH w).
  unfold load_event, get_pr_commits, try_except, raise, call, print, emit,
    mbind, M_bind, mret, M_ret.
  destruct (negb _ || negb _); [by repeat constructor|].
  destruct (GITHUB_EVENT_PATH w) as [path|]; [|by repeat constructor].
  cbv beta iota zeta.
  destruct (load_json w path) as [e|event_data]; [by repeat constructor|].
  destruct (pull_request event_data) as [pr|]; [|by repeat constructor].
  rewrite read_exercise_run. cbv beta iota zeta.
  pose proof (file_event_call_ok w _ (walk_events_file_event w (walk w) [])) as Hwalk.
  destruct (github_pr_commits w _ _ _) as [e|commits]; cbn [snd].
  - repeat (apply Forall_app; split); try by repeat constructor.
    repeat constructor. apply api_root_prefix.
  - match goal with
    | |- context [review_commits ?w ?s ?ec ?cs ?fb ?T] =>
        pose proof (review_commits_calls w s ec cs fb T) as Hloop;
        destruct (review_commits w s ec cs fb T) as [[fb'|e] evs]
    end; cbn [snd] in *.
    + repeat (apply Forall_app; split); try by repeat constructor.
      * repeat constructor. apply api_root_prefix.
      * eapply Forall_impl; [exact Hloop|]. intros ev.
        by apply loop_call_ok_run.
    + repeat (apply Forall_app; split); try by repeat constructor.
      * repeat constructor. apply api_root_prefix.
      * eapply Forall_impl; [exact Hloop|]. intros ev.
        by apply loop_call_ok_run.
Qed.

Lemma collect_run_session w s fb evs :
  collect_run w (Returned (Some (s, fb))) evs →
  github_token s = GITHUB_TOKEN w ∧ repo_full_name s = GITHUB_REPOSITORY w.
Proof. inversion 1. done. Qed.

Lemma run_calls w : Forall (run_call_ok w) (run w).2.
Proof.
  rewrite run_unfold.
  pose proof (collect_feedback_calls w []) as Hc.
  destruct (collect_feedback w []) as [o evs] eqn:H. cbn [snd] in Hc.
  destruct o as [[[s fb]|]|e]; cbn [snd]; [|done|done].
  apply collect_feedback_inv, collect_run_session in H as [Htok Hrepo].
  destruct (decide (fb = [])) as [->|Hfb].
  - destruct (publish_run w s [] evs) as [[_ ->] | [Hne _]]; [|done].
    cbn [snd]. apply Forall_app. split; [done|]. by repeat constructor.
  - rewrite (publish_cases w s fb evs Hfb). cbv zeta.
    assert (Hpost : ∀ r, run_call_ok w
              (PostComment (comment_url s) (github_headers (github_token s))
                 (comment_body fb) r)).
    { intros r. split; [by rewrite Htok|]. rewrite <- Hrepo. apply api_root_prefix. }
    destruct (github_post w _ _ _ _) as [e|code]; cbn [snd];
      (apply Forall_app; split; [done|]);
      (constructor; [apply Hpost|]); by repeat constructor.
Qed.

(** X14. Every REST call of a run carries the Authorization header made of
    [GITHUB_TOKEN] beside the Accept header, and goes to a url below
    [https://api.github.com/repos/] followed by [GITHUB_REPOSITORY]. *)
Theorem rest_calls_carry_token_and_repository (w : World) (ev : event) :
  ev ∈ (run w).2 →
  match ev with
  | GetPrCommits url headers _ | GetCommitChanges url headers _
  | PostComment url headers _ _ =>
      headers = [ (lit "Authorization", lit "token " ++ fmt (GITHUB_TOKEN w));
                  (lit "Accept", lit "application/vnd.github.v3+json") ]
      ∧ (lit "https://api.github.com/repos/" ++ fmt (GITHUB_REPOSITORY w))
          `prefix_of` url
  | _ => True
  end.
Proof.
  intros Hin. pose proof (run_calls w) as H. rewrite Forall_forall in H.
  specialize (H ev Hin). by destruct ev.
Qed.


Lemma setup_events_quiet w :
  Forall (λ ev, ¬ network_event ev ∧ ¬ read_event ev) (setup_events w).
Proof. repeat constructor; by intros []. Qed.

Lemma startup_events_no_network w path event_data :
  Forall (λ ev, ¬ network_event ev) (startup_events w path event_data).
Proof.
  unfold startup_events, setup_events.
  repeat (apply Forall_app; split); try (repeat constructor; by intros []).
  eapply Forall_impl; [apply walk_events_file_event|]. by intros [] ? [].
Qed.

(** X10. An event that is no pull request ends the run once the payload is
    loaded: the working tree is not read and no network call is made. *)
Theorem not_a_pull_request_stops_early (w : World) path event_data :
  secrets_present w → GITHUB_EVENT_PATH w = Some path →
  load_json w path = inr event_data → pull_request event_data = None →
  run w = (Returned tt,
           setup_events w ++ [LoadEvent path (inr event_data);
                              Print not_a_pull_request_line])
  ∧ Forall (λ ev, ¬ network_event ev ∧ ¬ read_event ev) (run w).2.
Proof.
  intros Hs Hp Hl Hpr.
  assert (Hrun : run w = (Returned tt,
            setup_events w ++ [LoadEvent path (inr event_data);
                               Print not_a_pull_request_line])).
  { rewrite run_unfold.
    destruct (collect_feedback w []) as [o evs] eqn:H.
    apply collect_feedback_inv in H.
    destruct H; try done; congruence. }
  split; [done|]. rewrite Hrun. cbn [snd].
  apply Forall_app. split; [apply setup_events_quiet|].
  repeat constructor; by intros [].
Qed.

(** X11. When the call that lists the commits raises, it is the only network
    call of the run: no commit detail is fetched, the model is not called
    and no comment is posted. *)
Theorem commit_list_failure_is_only_call (w : World) url headers e :
  GetPrCommits url headers (inl e) ∈ (run w).2 →
  (∃ path event_data,
     (run w).2 = startup_events w path event_data
                 ++ [GetPrCommits url headers (inl e);
                     Print (lit "❌ Error fetching commits: " ++ exn_text e)])
  ∧ ∀ ev, ev ∈ (run w).2 → network_event ev →
          ev = GetPrCommits url headers (inl e).
Proof.
  rewrite run_unfold.
  destruct (collect_feedback w []) as [o evs] eqn:H.
  pose proof (collect_feedback_inv _ _ _ _ H) as R.
  destruct R as [| | | |path ed pr e' _ _ _ _
                |path ed pr commits picks evs' _ _ _ _ _ _ Hloop];
    cbn [fst snd]; intros Hin.
  1-4: exfalso; repeat (apply elem_of_app in Hin as [Hin|Hin]);
         unfold setup_events in Hin; by elem_cases Hin.
  - pose proof (startup_events_no_network w path ed) as Hquiet.
    rewrite Forall_forall in Hquiet.
    assert (Heq : GetPrCommits (pr_commits_url (GITHUB_REPOSITORY w) (number pr))
                    (github_headers (GITHUB_TOKEN w)) (inl e')
                  = GetPrCommits url headers (inl e)).
    { apply elem_of_app in Hin as [Hin|Hin].
      - by destruct (Hquiet _ Hin).
      - by elem_cases Hin. }
    rewrite Heq. injection Heq as _ _ ->. split; [by exists path, ed|].
    intros ev Hev Hnet. apply elem_of_app in Hev as [Hev|Hev].
    + by destruct (Hquiet _ Hev).
    + apply elem_of_cons in Hev as [->|Hev]; [done|].
      apply list_elem_of_singleton in Hev as ->. by destruct Hnet.
  - exfalso.
    pose proof (publish_no_pr_commits w (session w pr)
      ((λ ct, format_feedback ct.1 ct.2) <$> picks)
      (startup_events w path ed
       ++ [GetPrCommits (pr_commits_url (GITHUB_REPOSITORY w) (number pr))
             (github_headers (GITHUB_TOKEN w)) (inr commits);
           Print (lit "✅ Found " ++ of_Z (Z.of_nat (length commits))
                  ++ lit " commits")] ++ evs') url headers (inl e)) as Hq.
    destruct (publish w _ _ _) as [o' evs'']. cbn [snd] in *.
    pose proof (startup_events_no_network w path ed) as Hquiet.
    rewrite Forall_forall in Hquiet.
    apply elem_of_app in Hin as [Hin|Hin]; [|by destruct (Hq Hin)].
    apply elem_of_app in Hin as [Hin|Hin]; [by destruct (Hquiet _ Hin)|].
    apply elem_of_app in Hin as [Hin|Hin]; [by elem_cases Hin|].
    by destruct (loop_no_pr_commits _ _ _ _ Hloop Hin).
Qed.

(** X16. The file reads of a run come before its network calls: the trace
    splits into a part without network call and a part without file
    read. *)
Theorem file_reads_precede_network_calls (w : World) :
  ∃ pre post,
    (run w).2 = pre ++ post
    ∧ Forall (λ ev, ¬ network_event ev) pre
    ∧ Forall (λ ev, ¬ read_event ev) post.
Proof.
  rewrite run_unfold.
  destruct (collect_feedback w []) as [o evs] eqn:H.
  pose proof (collect_feedback_inv _ _ _ _ H) as R.
  destruct R as [| | | |path ed pr e' _ _ _ _
                |path ed pr commits picks evs' _ _ _ _ _ _ Hloop]; cbn [snd].
  - eexists _, []. rewrite app_nil_r. split; [reflexivity|].
    split; [repeat constructor; by intros []|constructor].
  - eexists _, []. rewrite app_nil_r. split; [reflexivity|].
    split; [|constructor].
    eapply Forall_impl; [apply setup_events_quiet|]. by intros ? [? _].
  - eexists _, []. rewrite app_nil_r. split; [reflexivity|].
    split; [|constructor]. apply Forall_app. split.
    + eapply Forall_impl; [apply setup_events_quiet|]. by intros ? [? _].
    + repeat constructor; by intros [].
  - eexists _, []. rewrite app_nil_r. split; [reflexivity|].
    split; [|constructor]. apply Forall_app. split.
    + eapply Forall_impl; [apply setup_events_quiet|]. by intros ? [? _].
    + repeat constructor; by intros [].
  - eexists _, _. split; [reflexivity|].
    split; [apply startup_events_no_network|]. repeat constructor; by intros [].
  - pose proof (publish_run w (session w pr)
      ((λ ct, format_feedback ct.1 ct.2) <$> picks)
      (startup_events w path ed
       ++ [GetPrCommits (pr_commits_url (GITHUB_REPOSITORY w) (number pr))
             (github_headers (GITHUB_TOKEN w)) (inr commits);
           Print (lit "✅ Found " ++ of_Z (Z.of_nat (length commits))
                  ++ lit " commits")] ++ evs')) as Hpub.
    destruct (publish w _ _ _) as [o' evs'']. cbn [snd] in *.
    exists (startup_events w path ed), (([GetPrCommits (pr_commits_url (GITHUB_REPOSITORY w) (number pr))
             (github_headers (GITHUB_TOKEN w)) (inr commits);
           Print (lit "✅ Found " ++ of_Z (Z.of_nat (length commits))
                  ++ lit " commits")] ++ evs') ++ evs'').
    split; [by rewrite <- !app_assoc|].
    split; [apply startup_events_no_network|].
    repeat (apply Forall_app; split).
    + repeat constructor; by intros [].
    + eapply Forall_impl; [exact Hloop|]. by intros [] ? [].
    + destruct Hpub as [[_ [= _ ->]] | [_ (u & h & b & r & [-> | [line [= _ ->]]])]];
        repeat constructor; by intros [].
Qed.

Lemma read_events_hit cs t :
  first_read cs = Some t →
  ∃ pre path,
    read_events cs = pre ++ [ReadFile path (inr t); Print (found_line path)]
    ∧ Forall (λ ev, ¬ text_read ev) pre.
Proof.
  induction cs as [|[p [e|t']] cs IH]; cbn [first_read read_events]; [done| |].
  - intros H. destruct (IH H) as (pre & path & -> & Hpre).
    exists (ReadFile p (inl e) :: could_not_read p e :: pre), path.
    split; [reflexivity|]. repeat constructor; [by intros []..|done].
  - intros [= ->]. exists [], p. split; [reflexivity|constructor].
Qed.

Lemma read_events_miss cs :
  first_read cs = None → Forall (λ ev, ¬ text_read ev) (read_events cs).
Proof.
  induction cs as [|[p [e|t']] cs IH]; cbn [first_read read_events];
    [constructor| |done].
  intros H. repeat constructor; [by intros []..|by apply IH].
Qed.

Lemma walk_events_hit w triples :
  walk_result w triples [] ≠ [] →
  ∃ pre path,
    walk_events w triples []
    = pre ++ [ReadFile path (inr (walk_result w triples []));
              Print (found_line path)]
    ∧ Forall (λ ev, ¬ text_read ev) pre.
Proof.
  induction triples as [|[root fs] rest IH]; cbn [walk_result walk_events]; [done|].
  destruct (first_read (dir_candidates w root fs)) as [t|] eqn:Hf;
    cbn [default]; unfold id.
  - destruct (read_events_hit _ _ Hf) as (pre & path & -> & Hpre).
    repeat case_bool_decide; try contradiction.
    + intros _. exists pre, path. by rewrite app_nil_r.
    + assert (t = []) as -> by (by destruct t).
      intros Hne. destruct (IH Hne) as (pre' & path' & -> & Hpre').
      exists (pre ++ [ReadFile path (inr []); Print (found_line path)] ++ pre'), path'.
      split; [by rewrite <- !app_assoc|].
      repeat (apply Forall_app; split); try done.
      repeat constructor; by intros [].
  - repeat case_bool_decide; try contradiction.
    intros Hne. destruct (IH Hne) as (pre' & path' & -> & Hpre').
    exists (read_events (dir_candidates w root fs) ++ pre'), path'.
    split; [by rewrite <- app_assoc|].
    apply Forall_app. split; [by apply read_events_miss|done].
Qed.

(** X6. When step 3 returns a text that is not empty, the search stopped
    there: the last file it read is the one that gave this text, it was
    announced on the next line, and no earlier read had given a text that
    is not empty. *)
Theorem read_exercise_stops_at_first_text (w : World) (tr : trace) text evs :
  read_exercise w tr = (Returned text, evs) →
  text ≠ [] →
  ∃ pre path,
    evs = pre ++ [ReadFile path (inr text); Print (found_line path)]
    ∧ Forall (λ ev, ¬ text_read ev) pre.
Proof.
  rewrite read_exercise_run. intros [= <- <-] Hne. by apply walk_events_hit.
Qed.

(** ** Witnesses of the further properties *)

Lemma should_ignore_file_any_order_witness :
  (if ignore_dir_loop (reverse (elements IGNORE_DIRS)) (lit "src/dist/app.js")
   then true
   else bool_decide (extension (lit "src/dist/app.js") ∉ SUPPORTED_EXTENSIONS))
  = should_ignore_file (lit "src/dist/app.js").
Proof.
  apply should_ignore_file_any_order. apply reverse_Permutation.
Defined.

Lemma kept_path_ends_with_supported_extension_witness :
  ∃ root e, lit "src/index.html" = root ++ e ∧ root ≠ []
            ∧ e ∈ SUPPORTED_EXTENSIONS ∧ e = extension (lit "src/index.html").
Proof.
  apply kept_path_ends_with_supported_extension. vm_compute. reflexivity.
Defined.

Lemma named_supported_file_is_kept_witness :
  should_ignore_file (lit "src/pages/" ++ lit "index" ++ lit ".html") = false.
Proof.
  apply named_supported_file_is_kept.
  - right. by exists (lit "src/pages").
  - apply (bool_decide_unpack _). vm_compute. exact I.
  - exists 105%N. split; [|discriminate].
    apply (bool_decide_unpack _). vm_compute. exact I.
  - apply (bool_decide_unpack _). vm_compute. exact I.
  - intros H. apply ignore_dir_loop_ignored in H. vm_compute in H. discriminate.
Defined.

Lemma read_exercise_stops_at_first_text_witness :
  ∃ pre path,
    (read_exercise world_ok []).2
    = pre ++ [ReadFile path (inr (lit "Build a form.")); Print (found_line path)]
    ∧ Forall (λ ev, ¬ text_read ev) pre.
Proof.
  apply (read_exercise_stops_at_first_text world_ok []).
  - vm_compute. reflexivity.
  - vm_compute. discriminate.
Defined.

Lemma read_exercise_reads_task_files_only_witness :
  ∃ names file,
    lit "./docs/TASK.md" = PosixPath.join (descend_path (lit ".") names) file
    ∧ Forall (λ n, n ∉ IGNORE_DIRS) names
    ∧ is_task_file world_ok file = true.
Proof.
  apply (read_exercise_reads_task_files_only world_ok []
           (lit "./docs/TASK.md") (inr (lit "Build a form."))).
  apply (list_elem_of_lookup_2 _ 2). vm_compute. reflexivity.
Defined.

Lemma detail_failure_skips_commit_witness :
  (review_commit world_detail_down demo_session [] [] commit_form []).1
  = Returned [].
Proof.
  refine (proj1
    (detail_failure_skips_commit world_detail_down demo_session [] []
       commit_form [] _ _ (commit_url demo_session commit_form)
       (github_headers (Some (lit "token"))) demo_error
       (surjective_pairing _) _)).
  apply (list_elem_of_lookup_2 _ 1). vm_compute. reflexivity.
Defined.

Lemma generation_success_appends_entry_witness :
  (review_commit world_ok demo_session [] [] commit_form []).1
  = Returned [lit "**[`abc1234`]** add form

Well done."].
Proof.
  refine (eq_trans (proj1
    (generation_success_appends_entry world_ok demo_session [] []
       commit_form [] _ _
       (make_prompt [] (mjoin (file_section <$> kept_files files_form)))
       (lit " Well done. ") (surjective_pairing _) _)) _).
  - apply (list_elem_of_lookup_2 _ 3). vm_compute. reflexivity.
  - vm_compute. reflexivity.
Defined.

Lemma nonempty_feedback_posts_once_witness :
  ∃ r rest,
    (run world_ok).2
    = (collect_feedback world_ok []).2
      ++ PostComment (comment_url demo_session)
           (github_headers (github_token demo_session))
           (comment_body [format_feedback commit_form (lit "Well done.")]) r
         :: rest.
Proof.
  destruct (nonempty_feedback_posts_once world_ok demo_session
              [format_feedback commit_form (lit "Well done.")]
              (collect_feedback world_ok []).2)
    as (r & rest & H & _).
  - vm_compute. reflexivity.
  - discriminate.
  - by exists r, rest.
Defined.

Lemma post_outcome_witness :
  (run world_post_refused).1 = Returned tt
  ∧ last (run world_post_refused).2 = Some (Print (posted_line 403)).
Proof.
  apply (post_outcome world_post_refused (comment_url demo_session)
           (github_headers (Some (lit "token")))
           (comment_body [format_feedback commit_form (lit "Well done.")])
           (inr 403)).
  apply (list_elem_of_lookup_2 _ 14). vm_compute. reflexivity.
Defined.

Lemma rest_calls_carry_token_and_repository_witness :
  github_headers (Some (lit "token"))
  = [ (lit "Authorization", lit "token " ++ fmt (GITHUB_TOKEN world_ok));
      (lit "Accept", lit "application/vnd.github.v3+json") ]
  ∧ (lit "https://api.github.com/repos/" ++ fmt (GITHUB_REPOSITORY world_ok))
      `prefix_of` commit_url demo_session commit_bundle.
Proof.
  apply (rest_calls_carry_token_and_repository world_ok
           (GetCommitChanges (commit_url demo_session commit_bundle)
              (github_headers (Some (lit "token")))
              (inr {| files := Some files_bundle |}))).
  apply (list_elem_of_lookup_2 _ 15). vm_compute. reflexivity.
Defined.


Lemma not_a_pull_request_stops_early_witness :
  run world_push
  = (Returned tt,
     setup_events world_push
     ++ [LoadEvent (lit "/github/workflow/event.json") (inr push_event);
         Print not_a_pull_request_line]).
Proof.
  refine (proj1 (not_a_pull_request_stops_early world_push
                   (lit "/github/workflow/event.json") push_event _ _ _ _)).
  - split; vm_compute; reflexivity.
  - vm_compute. reflexivity.
  - reflexivity.
  - reflexivity.
Defined.

Lemma commit_list_failure_is_only_call_witness :
  ∃ path event_data,
    (run world_list_down).2
    = startup_events world_list_down path event_data
      ++ [GetPrCommits (pr_commits_url (Some (lit "10x-college/html-forms")) 7)
            (github_headers (Some (lit "token"))) (inl demo_error);
          Print (lit "❌ Error fetching commits: " ++ exn_text demo_error)].
Proof.
  refine (proj1 (commit_list_failure_is_only_call world_list_down _ _ _ _)).
  apply (list_elem_of_lookup_2 _ 8). vm_compute. reflexivity.
Defined.

Example run_world_detail_down :
  run world_detail_down
  = (Returned tt,
     (collect_feedback world_detail_down []).2 ++ [Print no_feedback_line]).
Proof. vm_compute. reflexivity. Qed.
